(** * LIEF MachO chained-fixup rebase records (src/MachO/RelocationFixup.cpp)

    A shallow embedding of [LIEF::MachO::RelocationFixup]: the record keeps a
    discriminator [rtypes_], the image base, the offset of the fixup and a
    pointer to a heap-allocated, bit-packed payload.  Payloads live in an
    explicit heap so that [new], [delete] and pointer identity are visible. *)

From Stdlib Require Import ZArith Lia Ascii String HexString.
From stdpp Require Import base option list.

Local Open Scope Z_scope.

(** ** Unsigned machine arithmetic *)

(** [uint64_t] values are integers in [0, 2^64); arithmetic wraps around. *)
Definition u64 (x : Z) : Z := x mod 2 ^ 64.

Definition add64 (a b : Z) : Z := u64 (a + b).

Definition sub64 (a b : Z) : Z := u64 (a - b).

Definition in_u64 (x : Z) : Prop := 0 <= x < 2 ^ 64.

(** Storing [v] into an unsigned bit-field of [w] bits keeps the low [w] bits. *)
Definition bitfield (w v : Z) : Z := Z.land v (Z.ones w).

Definition fits (w v : Z) : Prop := 0 <= v < 2 ^ w.

(** ** Diagnostics *)

Inductive log_level : Type := LEVEL_ERR | LEVEL_WARN.

Definition log_entry : Type := (log_level * string)%type.

Definition LIEF_ERR (msg : string) : log_entry := (LEVEL_ERR, msg).

Definition LIEF_WARN (msg : string) : log_entry := (LEVEL_WARN, msg).

(** ** Payload layouts (namespace [details]) *)

Module details.

(** Modelled from the spec: [dyld_chained_ptr_arm64e_rebase] is declared in
    MachO/ChainedFixup.hpp, which is not among the sources.  The spec describes
    a target split over non-contiguous bit ranges, a next-stride field and high
    tag bits; the widths are those of the platform's published chained-fixup
    format (target 43, high8 8, next 11, bind 1, auth 1), lowest bits first. *)
Module arm64e_rebase.

Record dyld_chained_ptr_arm64e_rebase : Type := Build {
  target : Z;
  high8 : Z;
  next : Z;
  bind : Z;
  auth : Z
}.

Definition wf (p : dyld_chained_ptr_arm64e_rebase) : Prop :=
  fits 43 (target p) /\ fits 8 (high8 p) /\ fits 11 (next p) /\
  fits 1 (bind p) /\ fits 1 (auth p).

(** The 64-bit image of the struct. *)
Definition bits (p : dyld_chained_ptr_arm64e_rebase) : Z :=
  Z.lor (target p)
    (Z.lor (Z.shiftl (high8 p) 43)
       (Z.lor (Z.shiftl (next p) 51)
          (Z.lor (Z.shiftl (bind p) 62) (Z.shiftl (auth p) 63)))).

End arm64e_rebase.

(** Modelled from the spec: [dyld_chained_ptr_arm64e_auth_rebase]
    (MachO/ChainedFixup.hpp, absent).  Disjoint fixed-width fields: the target
    as a direct relative offset, the diversifier, the address-discriminator
    flag, the key selector, the next stride, the bind bit and the
    authentication marker (widths 32, 16, 1, 2, 11, 1, 1). *)
Module arm64e_auth_rebase.

Record dyld_chained_ptr_arm64e_auth_rebase : Type := Build {
  target : Z;
  diversity : Z;
  addrDiv : Z;
  key : Z;
  next : Z;
  bind : Z;
  auth : Z
}.

Definition wf (p : dyld_chained_ptr_arm64e_auth_rebase) : Prop :=
  fits 32 (target p) /\ fits 16 (diversity p) /\ fits 1 (addrDiv p) /\
  fits 2 (key p) /\ fits 11 (next p) /\ fits 1 (bind p) /\ fits 1 (auth p).

Definition bits (p : dyld_chained_ptr_arm64e_auth_rebase) : Z :=
  Z.lor (target p)
    (Z.lor (Z.shiftl (diversity p) 32)
       (Z.lor (Z.shiftl (addrDiv p) 48)
          (Z.lor (Z.shiftl (key p) 49)
             (Z.lor (Z.shiftl (next p) 51)
                (Z.lor (Z.shiftl (bind p) 62) (Z.shiftl (auth p) 63)))))).

(** [p->target = v]: a store into the 32-bit target field. *)
Definition assign_target (p : dyld_chained_ptr_arm64e_auth_rebase) (v : Z)
  : dyld_chained_ptr_arm64e_auth_rebase :=
  {| target := bitfield 32 v;
     diversity := diversity p;
     addrDiv := addrDiv p;
     key := key p;
     next := next p;
     bind := bind p;
     auth := auth p |}.

End arm64e_auth_rebase.

(** Modelled from the spec: [dyld_chained_ptr_64_rebase]
    (MachO/ChainedFixup.hpp, absent): target in the low-order bits, the high
    byte of the pointer, reserved bits, the next stride and the bind bit
    (widths 36, 8, 7, 12, 1). *)
Module ptr_64_rebase.

Record dyld_chained_ptr_64_rebase : Type := Build {
  target : Z;
  high8 : Z;
  reserved : Z;
  next : Z;
  bind : Z
}.

Definition wf (p : dyld_chained_ptr_64_rebase) : Prop :=
  fits 36 (target p) /\ fits 8 (high8 p) /\ fits 7 (reserved p) /\
  fits 12 (next p) /\ fits 1 (bind p).

Definition bits (p : dyld_chained_ptr_64_rebase) : Z :=
  Z.lor (target p)
    (Z.lor (Z.shiftl (high8 p) 36)
       (Z.lor (Z.shiftl (reserved p) 44)
          (Z.lor (Z.shiftl (next p) 51) (Z.shiftl (bind p) 63)))).

End ptr_64_rebase.

(** Modelled from the spec: [dyld_chained_ptr_32_rebase]
    (MachO/ChainedFixup.hpp, absent): a narrower target and next stride in a
    32-bit word (widths 26, 5, 1). *)
Module ptr_32_rebase.

Record dyld_chained_ptr_32_rebase : Type := Build {
  target : Z;
  next : Z;
  bind : Z
}.

Definition wf (p : dyld_chained_ptr_32_rebase) : Prop :=
  fits 26 (target p) /\ fits 5 (next p) /\ fits 1 (bind p).

Definition bits (p : dyld_chained_ptr_32_rebase) : Z :=
  Z.lor (target p) (Z.lor (Z.shiftl (next p) 26) (Z.shiftl (bind p) 31)).

End ptr_32_rebase.

End details.

Abbreviation dyld_chained_ptr_arm64e_rebase :=
  details.arm64e_rebase.dyld_chained_ptr_arm64e_rebase.
Abbreviation dyld_chained_ptr_arm64e_auth_rebase :=
  details.arm64e_auth_rebase.dyld_chained_ptr_arm64e_auth_rebase.
Abbreviation dyld_chained_ptr_64_rebase :=
  details.ptr_64_rebase.dyld_chained_ptr_64_rebase.
Abbreviation dyld_chained_ptr_32_rebase :=
  details.ptr_32_rebase.dyld_chained_ptr_32_rebase.

(** ** Target codec *)

(** Modelled from the spec: the member [unpack_target()] of the overlay
    [dyld_chained_ptr_generic64] (MachO/ChainedFixup.hpp, absent), read
    through its [rebase] view: the target is rebuilt by concatenating its two
    bit ranges, the high byte going back to bits 56..63. *)
Definition generic64_unpack_target (rebase : dyld_chained_ptr_64_rebase) : Z :=
  u64 (Z.lor (Z.shiftl (details.ptr_64_rebase.high8 rebase) 56)
             (details.ptr_64_rebase.target rebase)).

(** Modelled from the spec: the member [unpack_target()] of the overlay
    [dyld_chained_ptr_arm64e] (absent), read through its [rebase] view: same
    extraction discipline, with the narrower target. *)
Definition arm64e_unpack_target (rebase : dyld_chained_ptr_arm64e_rebase) : Z :=
  u64 (Z.lor (Z.shiftl (details.arm64e_rebase.high8 rebase) 56)
             (details.arm64e_rebase.target rebase)).

(** [unpack_target(const details::dyld_chained_ptr_64_rebase&)]: the payload
    is copied into the generic overlay and unpacked there. *)
Definition unpack_target_64 (rebase : dyld_chained_ptr_64_rebase) : Z :=
  generic64_unpack_target rebase.

(** [unpack_target(const details::dyld_chained_ptr_arm64e_rebase&)]. *)
Definition unpack_target_arm64e (rebase : dyld_chained_ptr_arm64e_rebase) : Z :=
  arm64e_unpack_target rebase.

(** Modelled from the spec: [pack_target(dyld_chained_ptr_arm64e_rebase&,
    uint64_t)] (absent): the inverse of unpack, masking and placing the target
    bits and leaving the stride and tag fields alone. *)
Definition pack_target_arm64e (rebase : dyld_chained_ptr_arm64e_rebase)
    (target : Z) : dyld_chained_ptr_arm64e_rebase :=
  {| details.arm64e_rebase.target := bitfield 43 target;
     details.arm64e_rebase.high8 := bitfield 8 (Z.shiftr target 56);
     details.arm64e_rebase.next := details.arm64e_rebase.next rebase;
     details.arm64e_rebase.bind := details.arm64e_rebase.bind rebase;
     details.arm64e_rebase.auth := details.arm64e_rebase.auth rebase |}.

(** Modelled from the spec: [pack_target(dyld_chained_ptr_64_rebase&,
    uint64_t)] (absent). *)
Definition pack_target_64 (rebase : dyld_chained_ptr_64_rebase) (target : Z)
  : dyld_chained_ptr_64_rebase :=
  {| details.ptr_64_rebase.target := bitfield 36 target;
     details.ptr_64_rebase.high8 := bitfield 8 (Z.shiftr target 56);
     details.ptr_64_rebase.reserved := details.ptr_64_rebase.reserved rebase;
     details.ptr_64_rebase.next := details.ptr_64_rebase.next rebase;
     details.ptr_64_rebase.bind := details.ptr_64_rebase.bind rebase |}.

(** ** Heap of payloads *)

(** What a payload pointer of the record may point to. *)
Inductive object : Type :=
| obj_arm64e_rebase (p : dyld_chained_ptr_arm64e_rebase)
| obj_arm64e_auth_rebase (p : dyld_chained_ptr_arm64e_auth_rebase)
| obj_64_rebase (p : dyld_chained_ptr_64_rebase)
| obj_32_rebase (p : dyld_chained_ptr_32_rebase).

(** A heap is a sequence of cells; a cell is [Some o] while the allocation is
    alive and [None] once it has been deleted.  Addresses are never reused. *)
Abbreviation heap := (list (option object)).

(** A pointer is [None] for [nullptr]. *)
Abbreviation pointer := (option nat).

(** [new T{o}]: a fresh cell at the end of the heap. *)
Definition new (o : object) (h : heap) : nat * heap :=
  (length h, h ++ [Some o]).

(** [*p]: undefined ([None]) on a null or dangling pointer. *)
Definition load (h : heap) (p : pointer) : option object :=
  l ← p; mjoin (h !! l).

Global Arguments load : simpl never.

(** [*p = o] on a live cell. *)
Definition store (h : heap) (p : pointer) (o : object) : option heap :=
  l ← p; _ ← mjoin (h !! l); Some (<[l := Some o]> h).

(** [delete p]: nothing on [nullptr], undefined on a cell that is not alive. *)
Definition delete (h : heap) (p : pointer) : option heap :=
  match p with
  | None => Some h
  | Some l => _ ← mjoin (h !! l); Some (<[l := None]> h)
  end.

(** The addresses of the allocations that are alive. *)
Fixpoint live_from (n : nat) (h : heap) : list nat :=
  match h with
  | [] => []
  | Some _ :: h' => n :: live_from (S n) h'
  | None :: h' => live_from (S n) h'
  end.

Definition live (h : heap) : list nat := live_from 0 h.

(** ** The record *)

(** The discriminator of the payload union (declared in the absent header
    LIEF/MachO/RelocationFixup.hpp; the enumerators are those the switches of
    the source go through). *)
Inductive REBASE_TYPES : Type :=
| UNKNOWN
| ARM64E_REBASE
| ARM64E_AUTH_REBASE
| PTR64_REBASE
| PTR32_REBASE.

(** Where a relocation comes from (LIEF/MachO/enums.hpp, absent); only
    [ORIGIN_CHAINED_FIXUPS] is named by the source, the other enumerators
    stand for the other kinds of relocation. *)
Inductive RELOCATION_ORIGINS : Type :=
| ORIGIN_UNKNOWN
| ORIGIN_DYLDINFO
| ORIGIN_RELOC_TABLE
| ORIGIN_CHAINED_FIXUPS.

(** The data members of [RelocationFixup].  The four typed pointers
    [arm64_rebase_], [arm64_auth_rebase_], [p64_rebase_] and [p32_rebase_]
    form a union: they are one pointer, [payload_], read at four types.
    The members are declared in LIEF/MachO/RelocationFixup.hpp, which is not
    among the sources; [imagebase_] is the [uint64_t] the constructor takes,
    and the width of the unsigned member [offset_], which neither the source
    nor the spec gives, is a parameter ([offset_bits]) of whatever stores
    into it. *)
Record RelocationFixup : Type := Build_RelocationFixup {
  ptr_fmt_ : Z;
  imagebase_ : Z;
  offset_ : Z;
  rtypes_ : REBASE_TYPES;
  payload_ : pointer
}.

Definition arm64_rebase_ (h : heap) (this : RelocationFixup)
  : option dyld_chained_ptr_arm64e_rebase :=
  o ← load h (payload_ this);
  match o with obj_arm64e_rebase p => Some p | _ => None end.

Definition arm64_auth_rebase_ (h : heap) (this : RelocationFixup)
  : option dyld_chained_ptr_arm64e_auth_rebase :=
  o ← load h (payload_ this);
  match o with obj_arm64e_auth_rebase p => Some p | _ => None end.

Definition p64_rebase_ (h : heap) (this : RelocationFixup)
  : option dyld_chained_ptr_64_rebase :=
  o ← load h (payload_ this);
  match o with obj_64_rebase p => Some p | _ => None end.

Definition p32_rebase_ (h : heap) (this : RelocationFixup)
  : option dyld_chained_ptr_32_rebase :=
  o ← load h (payload_ this);
  match o with obj_32_rebase p => Some p | _ => None end.

(** [RelocationFixup(fmt, imagebase)].  The remaining members take their
    defaults: the spec has a record created with encoding UNKNOWN and no
    payload. *)
Definition constructor (fmt imagebase : Z) : RelocationFixup :=
  {| ptr_fmt_ := fmt;
     imagebase_ := imagebase;
     offset_ := 0;
     rtypes_ := UNKNOWN;
     payload_ := None |}.

(** [~RelocationFixup()]: deletes the active payload, nothing for UNKNOWN. *)
Definition destructor (this : RelocationFixup) (h : heap) : option heap :=
  match rtypes_ this with
  | ARM64E_REBASE => delete h (payload_ this)
  | ARM64E_AUTH_REBASE => delete h (payload_ this)
  | PTR64_REBASE => delete h (payload_ this)
  | PTR32_REBASE => delete h (payload_ this)
  | UNKNOWN => Some h
  end.

(** ** Target getter and setter *)

(** [uint64_t target() const]: the value and what was logged. *)
Definition target (this : RelocationFixup) (h : heap)
  : option (Z * list log_entry) :=
  match rtypes_ this with
  | ARM64E_REBASE =>
      p ← arm64_rebase_ h this;
      Some (add64 (imagebase_ this) (unpack_target_arm64e p), [])
  | ARM64E_AUTH_REBASE =>
      p ← arm64_auth_rebase_ h this;
      Some (add64 (imagebase_ this) (details.arm64e_auth_rebase.target p), [])
  | PTR64_REBASE =>
      p ← p64_rebase_ h this;
      Some (add64 (imagebase_ this) (unpack_target_64 p), [])
  | PTR32_REBASE =>
      p ← p32_rebase_ h this;
      Some (add64 (imagebase_ this) (details.ptr_32_rebase.target p), [])
  | UNKNOWN =>
      Some (0, [LIEF_ERR "Can't get target: unknown rebase type"])
  end.

(** [rel_target = target; if (rel_target >= imagebase_) rel_target -= imagebase_]. *)
Definition rel_target (this : RelocationFixup) (target : Z) : Z :=
  if imagebase_ this <=? target then target - imagebase_ this else target.

(** [void target(uint64_t)]: the record, the heap and the log afterwards. *)
Definition set_target (this : RelocationFixup) (target : Z) (h : heap)
  : option (RelocationFixup * heap * list log_entry) :=
  match rtypes_ this with
  | ARM64E_REBASE =>
      p ← arm64_rebase_ h this;
      h' ← store h (payload_ this)
             (obj_arm64e_rebase (pack_target_arm64e p (rel_target this target)));
      Some (this, h', [])
  | ARM64E_AUTH_REBASE =>
      p ← arm64_auth_rebase_ h this;
      h' ← store h (payload_ this)
             (obj_arm64e_auth_rebase
                (details.arm64e_auth_rebase.assign_target p (rel_target this target)));
      Some (this, h', [])
  | PTR64_REBASE =>
      p ← p64_rebase_ h this;
      h' ← store h (payload_ this)
             (obj_64_rebase (pack_target_64 p (rel_target this target)));
      Some (this, h', [])
  | PTR32_REBASE =>
      Some (this, h,
            [LIEF_WARN "Updating a dyld_chained_ptr_generic32 is not supported yet"])
  | UNKNOWN =>
      Some (this, h, [LIEF_ERR "Can't set target: unknown rebase type"])
  end.

(** ** Address getter and setter *)

(** [uint64_t address() const]. *)
Definition address (this : RelocationFixup) : Z :=
  add64 (imagebase_ this) (offset_ this).

(** [void address(uint64_t)]: [offset_ = address - imagebase_].  The
    difference is computed in 64 bits and converted to the type of
    [offset_], an unsigned integer of [offset_bits] bits, which keeps its low
    [offset_bits] bits. *)
Definition set_address (offset_bits : Z) (this : RelocationFixup) (address : Z)
  : RelocationFixup :=
  {| ptr_fmt_ := ptr_fmt_ this;
     imagebase_ := imagebase_ this;
     offset_ := bitfield offset_bits (sub64 address (imagebase_ this));
     rtypes_ := rtypes_ this;
     payload_ := payload_ this |}.

(** ** Fixed answers of the relocation interface *)

Definition is_pc_relative (this : RelocationFixup) : bool := false.

Definition origin (this : RelocationFixup) : RELOCATION_ORIGINS :=
  ORIGIN_CHAINED_FIXUPS.

(** [void pc_relative(bool) {}]. *)
Definition pc_relative (this : RelocationFixup) (val : bool) : RelocationFixup :=
  this.

(** [classof]: a relocation is a fixup when its origin says so. *)
Definition classof (o : RELOCATION_ORIGINS) : bool :=
  match o with ORIGIN_CHAINED_FIXUPS => true | _ => false end.

(** ** Populating, copying *)

Definition with_payload (this : RelocationFixup) (t : REBASE_TYPES) (l : nat)
  : RelocationFixup :=
  {| ptr_fmt_ := ptr_fmt_ this;
     imagebase_ := imagebase_ this;
     offset_ := offset_ this;
     rtypes_ := t;
     payload_ := Some l |}.

(** [set(const dyld_chained_ptr_arm64e_rebase&)]. *)
Definition set_arm64e_rebase (this : RelocationFixup)
    (fixup : dyld_chained_ptr_arm64e_rebase) (h : heap) : RelocationFixup * heap :=
  let '(l, h') := new (obj_arm64e_rebase fixup) h in
  (with_payload this ARM64E_REBASE l, h').

(** [set(const dyld_chained_ptr_arm64e_auth_rebase&)]. *)
Definition set_arm64e_auth_rebase (this : RelocationFixup)
    (fixup : dyld_chained_ptr_arm64e_auth_rebase) (h : heap)
  : RelocationFixup * heap :=
  let '(l, h') := new (obj_arm64e_auth_rebase fixup) h in
  (with_payload this ARM64E_AUTH_REBASE l, h').

(** [set(const dyld_chained_ptr_64_rebase&)]. *)
Definition set_64_rebase (this : RelocationFixup)
    (fixup : dyld_chained_ptr_64_rebase) (h : heap) : RelocationFixup * heap :=
  let '(l, h') := new (obj_64_rebase fixup) h in
  (with_payload this PTR64_REBASE l, h').

(** [set(const dyld_chained_ptr_32_rebase&)]. *)
Definition set_32_rebase (this : RelocationFixup)
    (fixup : dyld_chained_ptr_32_rebase) (h : heap) : RelocationFixup * heap :=
  let '(l, h') := new (obj_32_rebase fixup) h in
  (with_payload this PTR32_REBASE l, h').

(** The switch shared by the copy constructor and copy assignment: the
    members of [this] have already been copied from [other]; allocate a copy
    of the payload [other] points to. *)
Definition copy_payload (this other : RelocationFixup) (h : heap)
  : option (RelocationFixup * heap) :=
  match rtypes_ this with
  | ARM64E_REBASE =>
      p ← arm64_rebase_ h other;
      let '(l, h') := new (obj_arm64e_rebase p) h in
      Some (with_payload this ARM64E_REBASE l, h')
  | ARM64E_AUTH_REBASE =>
      p ← arm64_auth_rebase_ h other;
      let '(l, h') := new (obj_arm64e_auth_rebase p) h in
      Some (with_payload this ARM64E_AUTH_REBASE l, h')
  | PTR64_REBASE =>
      p ← p64_rebase_ h other;
      let '(l, h') := new (obj_64_rebase p) h in
      Some (with_payload this PTR64_REBASE l, h')
  | PTR32_REBASE =>
      p ← p32_rebase_ h other;
      let '(l, h') := new (obj_32_rebase p) h in
      Some (with_payload this PTR32_REBASE l, h')
  | UNKNOWN => Some (this, h)
  end.

(** [RelocationFixup(const RelocationFixup& other)]. *)
Definition copy_constructor (other : RelocationFixup) (h : heap)
  : option (RelocationFixup * heap) :=
  copy_payload
    {| ptr_fmt_ := ptr_fmt_ other;
       imagebase_ := imagebase_ other;
       offset_ := offset_ other;
       rtypes_ := rtypes_ other;
       payload_ := None |}
    other h.

(** [clone()]: a new record copy-constructed from this one. *)
Definition clone (this : RelocationFixup) (h : heap)
  : option (RelocationFixup * heap) :=
  copy_constructor this h.

(** An object reference: the address of a record and the state found there.
    [this == &other] compares the addresses. *)
Record ref : Type := Ref {
  addr : nat;
  deref : RelocationFixup
}.

(** [operator=(const RelocationFixup& other)]: the state of [*this] and the
    heap afterwards. *)
Definition operator_assign (this other : ref) (h : heap)
  : option (RelocationFixup * heap) :=
  if Nat.eqb (addr this) (addr other) then Some (deref this, h)
  else
    copy_payload
      {| ptr_fmt_ := ptr_fmt_ (deref other);
         imagebase_ := imagebase_ (deref other);
         offset_ := offset_ (deref other);
         rtypes_ := rtypes_ (deref other);
         payload_ := payload_ (deref this) |}
      (deref other) h.

(** ** Equality *)

Definition encoding_code (t : REBASE_TYPES) : Z :=
  match t with
  | UNKNOWN => 0
  | ARM64E_REBASE => 1
  | ARM64E_AUTH_REBASE => 2
  | PTR64_REBASE => 3
  | PTR32_REBASE => 4
  end.

(** The bits of the active payload, none for UNKNOWN. *)
Definition payload_bits (this : RelocationFixup) (h : heap) : option (list Z) :=
  match rtypes_ this with
  | ARM64E_REBASE =>
      p ← arm64_rebase_ h this; Some [details.arm64e_rebase.bits p]
  | ARM64E_AUTH_REBASE =>
      p ← arm64_auth_rebase_ h this; Some [details.arm64e_auth_rebase.bits p]
  | PTR64_REBASE =>
      p ← p64_rebase_ h this; Some [details.ptr_64_rebase.bits p]
  | PTR32_REBASE =>
      p ← p32_rebase_ h this; Some [details.ptr_32_rebase.bits p]
  | UNKNOWN => Some []
  end.

(** What the fingerprint covers: encoding, payload bits, offset and base. *)
Definition content (this : RelocationFixup) (h : heap) : option (list Z) :=
  b ← payload_bits this h;
  Some (encoding_code (rtypes_ this) :: b ++ [offset_ this; imagebase_ this]).

Section Equality.

(** The mixing function of the hashing visitor (LIEF/MachO/hash.hpp, absent):
    any function from the values fed to it to a [size_t]. *)
Variable process : list Z -> Z.

(** Modelled from the spec: [Hash::hash] (LIEF/MachO/hash.hpp) is not among
    the sources.  The spec has a content-derived fingerprint covering
    encoding, payload bits, offset and base. *)
Definition Hash_hash (this : RelocationFixup) (h : heap) : option Z :=
  c ← content this h; Some (process c).

(** [operator==]: the answer, and how many fingerprints were computed. *)
Definition operator_eq (this rhs : ref) (h : heap) : option (bool * nat) :=
  if Nat.eqb (addr this) (addr rhs) then Some (true, 0%nat)
  else
    hash_lhs ← Hash_hash (deref this) h;
    hash_rhs ← Hash_hash (deref rhs) h;
    Some (hash_lhs =? hash_rhs, 2%nat).

(** [operator!=]. *)
Definition operator_ne (this rhs : ref) (h : heap) : option bool :=
  r ← operator_eq this rhs h; Some (negb r.1).

End Equality.

(** ** Invariant I1: the payload pointer agrees with the discriminator *)

Definition consistent (this : RelocationFixup) (h : heap) : Prop :=
  match rtypes_ this with
  | ARM64E_REBASE => is_Some (arm64_rebase_ h this)
  | ARM64E_AUTH_REBASE => is_Some (arm64_auth_rebase_ h this)
  | PTR64_REBASE => is_Some (p64_rebase_ h this)
  | PTR32_REBASE => is_Some (p32_rebase_ h this)
  | UNKNOWN => True
  end.

(** ** The relative targets an encoding can hold *)

(** A bit-field of the payload keeps only so many bits of the relative target:
    43 low bits and the top byte (ARM64e rebase), 32 bits (ARM64e
    authenticated rebase), 36 low bits and the top byte (64-bit rebase). *)
Definition representable (t : REBASE_TYPES) (rel : Z) : Prop :=
  match t with
  | ARM64E_REBASE => in_u64 rel /\ Z.land (Z.shiftr rel 43) (Z.ones 13) = 0
  | ARM64E_AUTH_REBASE => fits 32 rel
  | PTR64_REBASE => in_u64 rel /\ Z.land (Z.shiftr rel 36) (Z.ones 20) = 0
  | PTR32_REBASE => False
  | UNKNOWN => False
  end.

(** A sequence of [address(a)] calls, first call first. *)
Definition set_addresses (offset_bits : Z) (this : RelocationFixup)
    (calls : list Z) : RelocationFixup :=
  fold_left (set_address offset_bits) calls this.

(** ** Moves *)

(** [RelocationFixup(RelocationFixup&&) = default]: the members are moved one
    by one; for the scalar members and the union of raw pointers that is a
    copy, and nothing resets the source.  No allocation takes place. *)
Definition move_constructor (other : RelocationFixup) : RelocationFixup :=
  {| ptr_fmt_ := ptr_fmt_ other;
     imagebase_ := imagebase_ other;
     offset_ := offset_ other;
     rtypes_ := rtypes_ other;
     payload_ := payload_ other |}.

(** [operator=(RelocationFixup&&) = default]: memberwise as well; the pointer
    [this] held is overwritten. *)
Definition move_assign (this other : RelocationFixup) : RelocationFixup :=
  {| ptr_fmt_ := ptr_fmt_ other;
     imagebase_ := imagebase_ other;
     offset_ := offset_ other;
     rtypes_ := rtypes_ other;
     payload_ := payload_ other |}.

(** ** Well-formed payloads *)

(** Every bit-field of the object holds a value of its width. *)
Definition wf_object (o : object) : Prop :=
  match o with
  | obj_arm64e_rebase p => details.arm64e_rebase.wf p
  | obj_arm64e_auth_rebase p => details.arm64e_auth_rebase.wf p
  | obj_64_rebase p => details.ptr_64_rebase.wf p
  | obj_32_rebase p => details.ptr_32_rebase.wf p
  end.

(** ** Printing *)

(** The hexadecimal digits of a non-negative integer, lower case, no prefix. *)
Definition hex_digits (x : Z) : string :=
  match x with
  | Zpos p => HexString.Raw.of_pos p EmptyString
  | _ => "0"%string
  end.

Fixpoint zeros (n : nat) : string :=
  match n with
  | O => EmptyString
  | S n' => String "0"%char (zeros n')
  end.

(** The format specification [{:08x}]: hexadecimal, padded with zeros on the
    left to at least eight digits. *)
Definition format_08x (x : Z) : string :=
  let digits := hex_digits x in
  String.append (zeros (8 - String.length digits)) digits.

Definition newline : string := String (Ascii.ascii_of_nat 10) EmptyString.

(** [print(std::ostream&)]: what the function writes itself and what it
    logs.  [symbol] is the name of the symbol attached to the relocation, if
    any, and [Relocation_print] what the base class writes afterwards (both
    belong to the base class [Relocation], which is not among the sources). *)
Definition print (symbol : option string) (Relocation_print : string)
    (this : RelocationFixup) (h : heap) : option (string * list log_entry) :=
  '(t, log) ← target this h;
  Some (String.append "0x"
          (String.append (format_08x (address this))
             (String.append ": 0x"
                (String.append (format_08x t)
                   (String.append
                      match symbol with
                      | Some name => String.append "(" (String.append name ")")
                      | None => EmptyString
                      end
                      (String.append newline Relocation_print))))),
        log).

(** ** Sequences of calls on one record *)

(** The calls a populated record receives during its life. *)
Inductive call : Type :=
| call_target (v : Z)
| call_address (a : Z)
| call_pc_relative (b : bool).

(** One call: the record, the heap and the log afterwards. *)
Definition do_call (offset_bits : Z) (c : call) (this : RelocationFixup)
    (h : heap) : option (RelocationFixup * heap * list log_entry) :=
  match c with
  | call_target v => set_target this v h
  | call_address a => Some (set_address offset_bits this a, h, [])
  | call_pc_relative b => Some (pc_relative this b, h, [])
  end.

(** The calls in order, the logs concatenated. *)
Fixpoint do_calls (offset_bits : Z) (cs : list call) (this : RelocationFixup)
    (h : heap) : option (RelocationFixup * heap * list log_entry) :=
  match cs with
  | [] => Some (this, h, [])
  | c :: cs' =>
      '(this1, h1, log1) ← do_call offset_bits c this h;
      '(this2, h2, log2) ← do_calls offset_bits cs' this1 h1;
      Some (this2, h2, log1 ++ log2)
  end.

(** A sample mixing function, to run the equality on concrete records. *)
Definition sample_process (values : list Z) : Z :=
  fold_left (fun acc x => u64 (acc * 1099511628211 + x)) values 14695981039346656037.

(** * Properties *)

(** ** Machine arithmetic *)

Lemma u64_range (x : Z) : in_u64 (u64 x).
Proof. unfold in_u64, u64. apply Z.mod_pos_bound. lia. Qed.

Lemma u64_small (x : Z) : in_u64 x -> u64 x = x.
Proof. unfold in_u64, u64. intros H. apply Z.mod_small. exact H. Qed.

(** Without overflow the 64-bit sum is the sum. *)
Lemma add64_exact (a b : Z) : in_u64 (a + b) -> add64 a b = a + b.
Proof. apply u64_small. Qed.

Lemma add64_sub64 (b a : Z) : add64 b (sub64 a b) = u64 a.
Proof.
  unfold add64, sub64, u64.
  rewrite Zplus_mod_idemp_r. f_equal. lia.
Qed.

Lemma testbit_ones (w n : Z) :
  0 <= w -> 0 <= n -> Z.testbit (Z.ones w) n = (n <? w).
Proof.
  intros Hw Hn. destruct (Z.ltb_spec n w).
  - apply Z.ones_spec_low. lia.
  - apply Z.ones_spec_high. lia.
Qed.

Lemma testbit_bitfield (w v n : Z) :
  0 <= w -> 0 <= n -> Z.testbit (bitfield w v) n = Z.testbit v n && (n <? w).
Proof.
  intros Hw Hn. unfold bitfield.
  rewrite Z.land_spec, testbit_ones by lia. reflexivity.
Qed.

Lemma testbit_u64 (x n : Z) :
  0 <= n -> Z.testbit (u64 x) n = (n <? 64) && Z.testbit x n.
Proof.
  intros Hn. unfold u64. destruct (Z.ltb_spec n 64).
  - rewrite Z.mod_pow2_bits_low by lia. reflexivity.
  - rewrite Z.mod_pow2_bits_high by lia. reflexivity.
Qed.

Lemma testbit_above (w x n : Z) :
  0 <= w -> fits w x -> w <= n -> Z.testbit x n = false.
Proof.
  unfold fits. intros Hw Hx Hn.
  rewrite <- (Z.mod_small x (2 ^ w)) by lia.
  apply Z.mod_pow2_bits_high. lia.
Qed.

Lemma bitfield_range (w v : Z) : 0 <= w -> fits w (bitfield w v).
Proof.
  intros Hw. unfold fits, bitfield. rewrite Z.land_ones by lia.
  apply Z.mod_pos_bound. apply Z.pow_pos_nonneg; lia.
Qed.

Lemma bitfield_small (w v : Z) : 0 <= w -> fits w v -> bitfield w v = v.
Proof.
  intros Hw Hv. unfold bitfield. rewrite Z.land_ones by lia.
  apply Z.mod_small. exact Hv.
Qed.

(** ** Heap *)

Lemma load_Some (h : heap) (l : nat) (o : object) :
  load h (Some l) = Some o <-> h !! l = Some (Some o).
Proof.
  unfold load. simpl. destruct (h !! l) as [[o'|]|]; simpl; split; congruence.
Qed.

Lemma store_Some (h : heap) (l : nat) (o0 o : object) :
  h !! l = Some (Some o0) ->
  store h (Some l) o = Some (<[l := Some o]> h).
Proof. intros H. unfold store. simpl. rewrite H. reflexivity. Qed.

Lemma load_store (h : heap) (l : nat) (o0 o : object) :
  h !! l = Some (Some o0) ->
  load (<[l := Some o]> h) (Some l) = Some o.
Proof.
  intros H. apply load_Some. apply list_lookup_insert_eq.
  apply lookup_lt_Some in H. exact H.
Qed.

Lemma load_new (h : heap) (o : object) :
  load (new o h).2 (Some (new o h).1) = Some o.
Proof.
  apply load_Some. unfold new. simpl.
  rewrite lookup_app_r by lia. rewrite Nat.sub_diag. reflexivity.
Qed.

(** ** Address translator *)

Lemma imagebase_set_addresses (offset_bits : Z) (calls : list Z)
    (this : RelocationFixup) :
  imagebase_ (set_addresses offset_bits this calls) = imagebase_ this.
Proof.
  unfold set_addresses. revert this.
  induction calls as [|a calls IH]; intros this; simpl.
  - reflexivity.
  - rewrite IH. reflexivity.
Qed.

Lemma set_addresses_snoc (offset_bits : Z) (calls : list Z) (a : Z)
    (this : RelocationFixup) :
  set_addresses offset_bits this (calls ++ [a]) =
  set_address offset_bits (set_addresses offset_bits this calls) a.
Proof. unfold set_addresses. rewrite fold_left_app. reflexivity. Qed.

(** What a member of [w] bits keeps of a 64-bit difference. *)
Lemma bitfield_sub64 (w a b : Z) :
  0 <= w <= 64 -> bitfield w (sub64 a b) = (a - b) mod 2 ^ w.
Proof.
  intros Hw. unfold sub64. apply Z.bits_inj'. intros n Hn.
  rewrite testbit_bitfield, testbit_u64 by lia.
  destruct (Z.ltb_spec n w) as [Hlt|Hge].
  - rewrite Z.mod_pow2_bits_low by lia.
    destruct (Z.ltb_spec n 64); [|lia]. simpl. apply andb_true_r.
  - rewrite Z.mod_pow2_bits_high by lia. apply andb_false_r.
Qed.

(** C6, as amended: after any sequence of [address(a)] calls the getter
    [address()] equals image_base + relative_offset modulo 2^64 and the image
    base is the one the record started with; [address(a)] stores, without
    any validation, the difference a - image_base reduced to the width of
    the relative_offset member, so a following [address()] returns a modulo
    2^64 whenever (a - image_base) mod 2^64 fits that width, whatever calls
    came before: for every a when the member has 64 bits. *)
Theorem address_after_set_address (offset_bits : Z) (this : RelocationFixup)
    (calls : list Z) (a : Z) :
  0 <= offset_bits <= 64 ->
  let this' := set_addresses offset_bits this calls in
  address this' = (imagebase_ this' + offset_ this') mod 2 ^ 64 /\
  imagebase_ this' = imagebase_ this /\
  offset_ (set_address offset_bits this' a) =
    (a - imagebase_ this) mod 2 ^ offset_bits /\
  ((a - imagebase_ this) mod 2 ^ 64 < 2 ^ offset_bits ->
   address (set_address offset_bits this' a) = a mod 2 ^ 64 /\
   address (set_addresses offset_bits this (calls ++ [a])) = a mod 2 ^ 64) /\
  (offset_bits = 64 ->
   address (set_address offset_bits this' a) = a mod 2 ^ 64 /\
   address (set_addresses offset_bits this (calls ++ [a])) = a mod 2 ^ 64).
Proof.
  intros Hw this'. subst this'.
  pose proof (imagebase_set_addresses offset_bits calls this) as Hbase.
  assert (Hfit : (a - imagebase_ this) mod 2 ^ 64 < 2 ^ offset_bits ->
            address (set_address offset_bits (set_addresses offset_bits this calls) a)
            = a mod 2 ^ 64).
  { intros Hlt. unfold address, set_address. simpl. rewrite Hbase.
    rewrite bitfield_small.
    - apply add64_sub64.
    - lia.
    - unfold fits, sub64, u64. split; [|exact Hlt].
      apply Z.mod_pos_bound. lia. }
  split; [reflexivity|].
  split; [exact Hbase|].
  split; [simpl; rewrite Hbase; apply bitfield_sub64; exact Hw|].
  split.
  - intros Hlt. split; [apply Hfit; exact Hlt|].
    rewrite set_addresses_snoc. apply Hfit. exact Hlt.
  - intros ->.
    assert (Hlt : (a - imagebase_ this) mod 2 ^ 64 < 2 ^ 64)
      by (apply Z.mod_pos_bound; lia).
    split; [apply Hfit; exact Hlt|].
    rewrite set_addresses_snoc. apply Hfit. exact Hlt.
Qed.

Lemma address_after_set_address_example :
  let this := constructor 2 0x100000000 in
  let calls := [0x100000010; 0x1000] in
  address (set_address 32 (set_addresses 32 this calls) 0x100004010) = 0x100004010 /\
  address (set_addresses 32 this (calls ++ [0x100004010])) = 0x100004010.
Proof.
  cbv zeta.
  pose proof (address_after_set_address 32 (constructor 2 0x100000000)
                [0x100000010; 0x1000] 0x100004010 ltac:(lia)) as H.
  cbv zeta in H. destruct H as (_ & _ & _ & Hfit & _).
  apply Hfit. vm_compute. reflexivity.
Defined.

(** C6, as stated, fails when the relative_offset member is narrower than
    64 bits.  With the 32-bit member of the LIEF declaration and image base
    0x100000000, [address(0x1000)], an address below the image base, stores
    the low 32 bits of the wrapped difference 0xFFFFFFFF00001000, that is
    0x1000, and [address()] returns 0x100001000; [address(0x200000000)]
    stores 0 and [address()] returns 0x100000000. *)
Lemma address_after_set_address_truncates :
  let this := constructor 2 0x100000000 in
  offset_ (set_address 32 this 0x1000) = 0x1000 /\
  address (set_address 32 this 0x1000) = 0x100001000 /\
  address (set_address 32 this 0x1000) <> 0x1000 mod 2 ^ 64 /\
  offset_ (set_address 32 this 0x200000000) = 0 /\
  address (set_address 32 this 0x200000000) = 0x100000000 /\
  address (set_address 32 this 0x200000000) <> 0x200000000 mod 2 ^ 64.
Proof.
  cbv zeta. repeat split; try reflexivity; vm_compute; discriminate.
Qed.

(** ** Fixed answers *)

(** C10: [is_pc_relative()] is false and [origin()] is ORIGIN_CHAINED_FIXUPS
    for every record, and [pc_relative(b)] changes nothing for either value
    of b, so [is_pc_relative()] is still false afterwards. *)
Theorem pc_relative_is_noop (this : RelocationFixup) (b : bool) :
  is_pc_relative this = false /\
  origin this = ORIGIN_CHAINED_FIXUPS /\
  pc_relative this b = this /\
  is_pc_relative (pc_relative this b) = false /\
  origin (pc_relative this b) = ORIGIN_CHAINED_FIXUPS.
Proof. repeat split. Qed.

(** ** Unknown and unsupported encodings *)

(** C3: on a record whose encoding is UNKNOWN, a freshly constructed one
    included, [target()] logs an error and returns 0, and [target(v)] logs an
    error and leaves the record and the heap as they were, for every v. *)
Theorem unknown_target_is_error (this : RelocationFixup) (h : heap) (v : Z) :
  rtypes_ this = UNKNOWN ->
  target this h = Some (0, [LIEF_ERR "Can't get target: unknown rebase type"]) /\
  set_target this v h =
    Some (this, h, [LIEF_ERR "Can't set target: unknown rebase type"]) /\
  (forall fmt imagebase, rtypes_ (constructor fmt imagebase) = UNKNOWN).
Proof.
  intros Hu. unfold target, set_target. rewrite Hu. repeat split.
Qed.

Lemma unknown_target_is_error_fresh :
  let this := constructor 2 0x100000000 in
  target this [] = Some (0, [LIEF_ERR "Can't get target: unknown rebase type"]) /\
  set_target this 0x100001000 [] =
    Some (this, [], [LIEF_ERR "Can't set target: unknown rebase type"]) /\
  (forall fmt imagebase, rtypes_ (constructor fmt imagebase) = UNKNOWN).
Proof.
  exact (unknown_target_is_error (constructor 2 0x100000000) [] 0x100001000 eq_refl).
Defined.

(** C4: on a PTR32_REBASE record [target(v)] logs one warning, no error, and
    changes neither the record nor the heap, for every v; a following
    [target()] returns what it returned before the call. *)
Theorem ptr32_set_target_is_noop (this : RelocationFixup) (h : heap) (v : Z) :
  rtypes_ this = PTR32_REBASE ->
  set_target this v h =
    Some (this, h,
          [LIEF_WARN "Updating a dyld_chained_ptr_generic32 is not supported yet"]) /\
  (forall this' h' log,
     set_target this v h = Some (this', h', log) ->
     target this' h' = target this h /\
     p32_rebase_ h' this' = p32_rebase_ h this /\
     Forall (fun e => e.1 = LEVEL_WARN) log).
Proof.
  intros Ht. unfold set_target. rewrite Ht. split; [reflexivity|].
  intros this' h' log [= <- <- <-]. repeat split.
  repeat constructor.
Qed.

Lemma ptr32_set_target_is_noop_example :
  let p := details.ptr_32_rebase.Build 0x4000 1 0 in
  let this := with_payload (constructor 1 0x10000) PTR32_REBASE 0 in
  let h := [Some (obj_32_rebase p)] in
  target this h = Some (0x14000, []) /\
  set_target this 0x20000 h =
    Some (this, h,
          [LIEF_WARN "Updating a dyld_chained_ptr_generic32 is not supported yet"]) /\
  (forall this' h' log,
     set_target this 0x20000 h = Some (this', h', log) ->
     target this' h' = target this h /\
     p32_rebase_ h' this' = p32_rebase_ h this /\
     Forall (fun e => e.1 = LEVEL_WARN) log).
Proof.
  split; [reflexivity|].
  exact (ptr32_set_target_is_noop
           (with_payload (constructor 1 0x10000) PTR32_REBASE 0)
           [Some (obj_32_rebase (details.ptr_32_rebase.Build 0x4000 1 0))]
           0x20000 eq_refl).
Defined.

(** ** Target codec *)

Lemma testbit_gap (rel lo w n : Z) :
  0 <= lo -> 0 <= w ->
  Z.land (Z.shiftr rel lo) (Z.ones w) = 0 ->
  lo <= n < lo + w -> Z.testbit rel n = false.
Proof.
  intros Hlo Hw Hz Hn.
  assert (Hb : Z.testbit (Z.land (Z.shiftr rel lo) (Z.ones w)) (n - lo) = false).
  { rewrite Hz. apply Z.bits_0. }
  rewrite Z.land_spec, Z.shiftr_spec, testbit_ones in Hb by lia.
  replace (n - lo + lo) with n in Hb by lia.
  destruct (Z.ltb_spec (n - lo) w); [|lia].
  rewrite andb_true_r in Hb. exact Hb.
Qed.

(** Rebuilding a target from its low [w] bits and its top byte gives the
    target back when the bits in between are clear. *)
Lemma scatter_gather (w rel : Z) :
  0 <= w <= 56 ->
  in_u64 rel ->
  Z.land (Z.shiftr rel w) (Z.ones (56 - w)) = 0 ->
  u64 (Z.lor (Z.shiftl (bitfield 8 (Z.shiftr rel 56)) 56) (bitfield w rel)) = rel.
Proof.
  intros Hw Hrel Hgap. apply Z.bits_inj'. intros n Hn.
  rewrite testbit_u64, Z.lor_spec, testbit_bitfield by lia.
  destruct (Z.ltb_spec n 64) as [H64|H64]; simpl.
  - destruct (Z.ltb_spec n w) as [Hlow|Hlow].
    + rewrite andb_true_r. rewrite Z.shiftl_spec_low by lia. reflexivity.
    + rewrite andb_false_r, orb_false_r.
      destruct (Z_lt_ge_dec n 56) as [Hmid|Hhigh].
      * rewrite Z.shiftl_spec_low by lia. symmetry.
        apply (testbit_gap rel w (56 - w)); lia || assumption.
      * rewrite Z.shiftl_spec, testbit_bitfield, Z.shiftr_spec by lia.
        replace (n - 56 + 56) with n by lia.
        destruct (Z.ltb_spec (n - 56) 8); [|lia]. apply andb_true_r.
  - symmetry. apply (testbit_above 64); [lia|exact Hrel|lia].
Qed.

Lemma unpack_pack_arm64e (p : dyld_chained_ptr_arm64e_rebase) (rel : Z) :
  representable ARM64E_REBASE rel ->
  unpack_target_arm64e (pack_target_arm64e p rel) = rel.
Proof.
  intros [Hrel Hgap].
  unfold unpack_target_arm64e, arm64e_unpack_target, pack_target_arm64e. simpl.
  apply (scatter_gather 43); [lia|exact Hrel|exact Hgap].
Qed.

Lemma unpack_pack_64 (p : dyld_chained_ptr_64_rebase) (rel : Z) :
  representable PTR64_REBASE rel ->
  unpack_target_64 (pack_target_64 p rel) = rel.
Proof.
  intros [Hrel Hgap].
  unfold unpack_target_64, generic64_unpack_target, pack_target_64. simpl.
  apply (scatter_gather 36); [lia|exact Hrel|exact Hgap].
Qed.

(** Conversely, a target that survives the trip has no bit set between its
    low field and its top byte. *)
Lemma gather_scatter_only_if (w rel : Z) :
  0 <= w <= 56 ->
  u64 (Z.lor (Z.shiftl (bitfield 8 (Z.shiftr rel 56)) 56) (bitfield w rel)) = rel ->
  Z.land (Z.shiftr rel w) (Z.ones (56 - w)) = 0.
Proof.
  intros Hw Heq. apply Z.bits_inj'. intros n Hn.
  rewrite Z.bits_0, Z.land_spec, Z.shiftr_spec, testbit_ones by lia.
  destruct (Z.ltb_spec n (56 - w)) as [Hgap|Hout]; [|apply andb_false_r].
  rewrite andb_true_r.
  apply (f_equal (fun x => Z.testbit x (n + w))) in Heq. rewrite <- Heq.
  rewrite testbit_u64, Z.lor_spec, testbit_bitfield by lia.
  rewrite Z.shiftl_spec_low by lia.
  destruct (Z.ltb_spec (n + w) w); [lia|].
  rewrite andb_false_r. apply andb_false_r.
Qed.

Lemma add64_cancel (b y rel : Z) :
  in_u64 y -> 0 <= b -> 0 <= rel -> in_u64 (b + rel) ->
  add64 b y = b + rel -> y = rel.
Proof.
  unfold add64, u64, in_u64. intros Hy Hb Hrel Hsum Heq.
  assert (H64 : 0 < 2 ^ 64) by lia.
  pose proof (Z.div_mod (b + y) (2 ^ 64) ltac:(lia)) as Hdm.
  pose proof (Z.mod_pos_bound (b + y) (2 ^ 64) H64) as Hbound.
  rewrite Heq in Hdm.
  assert (Hq : (b + y) / 2 ^ 64 = 0 \/ (b + y) / 2 ^ 64 = 1).
  { assert (0 <= (b + y) / 2 ^ 64 < 2); [|lia].
    split; [apply Z.div_pos; lia|].
    apply Z.div_lt_upper_bound; lia. }
  lia.
Qed.

Lemma rel_target_above (this : RelocationFixup) (v : Z) :
  imagebase_ this <= v -> rel_target this v = v - imagebase_ this.
Proof.
  intros H. unfold rel_target. destruct (Z.leb_spec (imagebase_ this) v); lia.
Qed.

Lemma rel_target_below (this : RelocationFixup) (v : Z) :
  v < imagebase_ this -> rel_target this v = v.
Proof.
  intros H. unfold rel_target. destruct (Z.leb_spec (imagebase_ this) v); lia.
Qed.

(** What [target(v)] does on each encoding with a codec, given the payload
    the record points to. *)
Lemma set_target_arm64e (this : RelocationFixup) (h : heap) (l : nat)
    (p : dyld_chained_ptr_arm64e_rebase) (v : Z) :
  rtypes_ this = ARM64E_REBASE -> payload_ this = Some l ->
  h !! l = Some (Some (obj_arm64e_rebase p)) ->
  set_target this v h =
    Some (this,
          <[l := Some (obj_arm64e_rebase (pack_target_arm64e p (rel_target this v)))]> h,
          []).
Proof.
  intros Ht Hp Hl. unfold set_target, arm64_rebase_. rewrite Ht, Hp.
  rewrite (proj2 (load_Some h l _) Hl). cbn -[store].
  rewrite (store_Some h l _ _ Hl). reflexivity.
Qed.

Lemma set_target_arm64e_auth (this : RelocationFixup) (h : heap) (l : nat)
    (p : dyld_chained_ptr_arm64e_auth_rebase) (v : Z) :
  rtypes_ this = ARM64E_AUTH_REBASE -> payload_ this = Some l ->
  h !! l = Some (Some (obj_arm64e_auth_rebase p)) ->
  set_target this v h =
    Some (this,
          <[l := Some (obj_arm64e_auth_rebase
                         (details.arm64e_auth_rebase.assign_target p
                            (rel_target this v)))]> h,
          []).
Proof.
  intros Ht Hp Hl. unfold set_target, arm64_auth_rebase_. rewrite Ht, Hp.
  rewrite (proj2 (load_Some h l _) Hl). cbn -[store].
  rewrite (store_Some h l _ _ Hl). reflexivity.
Qed.

Lemma set_target_64 (this : RelocationFixup) (h : heap) (l : nat)
    (p : dyld_chained_ptr_64_rebase) (v : Z) :
  rtypes_ this = PTR64_REBASE -> payload_ this = Some l ->
  h !! l = Some (Some (obj_64_rebase p)) ->
  set_target this v h =
    Some (this,
          <[l := Some (obj_64_rebase (pack_target_64 p (rel_target this v)))]> h,
          []).
Proof.
  intros Ht Hp Hl. unfold set_target, p64_rebase_. rewrite Ht, Hp.
  rewrite (proj2 (load_Some h l _) Hl). cbn -[store].
  rewrite (store_Some h l _ _ Hl). reflexivity.
Qed.

Lemma typed_load_arm64e (this : RelocationFixup) (h : heap)
    (p : dyld_chained_ptr_arm64e_rebase) :
  arm64_rebase_ h this = Some p <->
  exists l, payload_ this = Some l /\ h !! l = Some (Some (obj_arm64e_rebase p)).
Proof.
  unfold arm64_rebase_, load. destruct (payload_ this) as [l|]; simpl.
  - split.
    + intros H. exists l. split; [reflexivity|].
      destruct (h !! l) as [[o|]|]; simpl in H; try discriminate.
      destruct o; try discriminate. congruence.
    + intros (l' & [= <-] & Hl). rewrite Hl. reflexivity.
  - split; [discriminate|]. intros (l & Hl & _). discriminate.
Qed.

Lemma typed_load_arm64e_auth (this : RelocationFixup) (h : heap)
    (p : dyld_chained_ptr_arm64e_auth_rebase) :
  arm64_auth_rebase_ h this = Some p <->
  exists l, payload_ this = Some l /\
            h !! l = Some (Some (obj_arm64e_auth_rebase p)).
Proof.
  unfold arm64_auth_rebase_, load. destruct (payload_ this) as [l|]; simpl.
  - split.
    + intros H. exists l. split; [reflexivity|].
      destruct (h !! l) as [[o|]|]; simpl in H; try discriminate.
      destruct o; try discriminate. congruence.
    + intros (l' & [= <-] & Hl). rewrite Hl. reflexivity.
  - split; [discriminate|]. intros (l & Hl & _). discriminate.
Qed.

Lemma typed_load_64 (this : RelocationFixup) (h : heap)
    (p : dyld_chained_ptr_64_rebase) :
  p64_rebase_ h this = Some p <->
  exists l, payload_ this = Some l /\ h !! l = Some (Some (obj_64_rebase p)).
Proof.
  unfold p64_rebase_, load. destruct (payload_ this) as [l|]; simpl.
  - split.
    + intros H. exists l. split; [reflexivity|].
      destruct (h !! l) as [[o|]|]; simpl in H; try discriminate.
      destruct o; try discriminate. congruence.
    + intros (l' & [= <-] & Hl). rewrite Hl. reflexivity.
  - split; [discriminate|]. intros (l & Hl & _). discriminate.
Qed.

Lemma typed_load_32 (this : RelocationFixup) (h : heap)
    (p : dyld_chained_ptr_32_rebase) :
  p32_rebase_ h this = Some p <->
  exists l, payload_ this = Some l /\ h !! l = Some (Some (obj_32_rebase p)).
Proof.
  unfold p32_rebase_, load. destruct (payload_ this) as [l|]; simpl.
  - split.
    + intros H. exists l. split; [reflexivity|].
      destruct (h !! l) as [[o|]|]; simpl in H; try discriminate.
      destruct o; try discriminate. congruence.
    + intros (l' & [= <-] & Hl). rewrite Hl. reflexivity.
  - split; [discriminate|]. intros (l & Hl & _). discriminate.
Qed.

(** C1: on a record whose encoding is ARM64E_REBASE, ARM64E_AUTH_REBASE,
    PTR64_REBASE or PTR32_REBASE, [target()] returns, in 64-bit unsigned
    arithmetic, image_base plus the relative target decoded from the active
    payload: the per-encoding unpack for the two bit-scattered encodings, the
    target field itself for ARM64E_AUTH_REBASE and PTR32_REBASE; nothing is
    logged.  A PTR64_REBASE payload with target bits 0x1000 and image base
    0x100000000 gives 0x100001000. *)
Theorem target_is_base_plus_decoded (this : RelocationFixup) (h : heap) :
  (forall p, rtypes_ this = ARM64E_REBASE -> arm64_rebase_ h this = Some p ->
     target this h =
       Some ((imagebase_ this + unpack_target_arm64e p) mod 2 ^ 64, [])) /\
  (forall p, rtypes_ this = ARM64E_AUTH_REBASE ->
     arm64_auth_rebase_ h this = Some p ->
     target this h =
       Some ((imagebase_ this + details.arm64e_auth_rebase.target p) mod 2 ^ 64,
             [])) /\
  (forall p, rtypes_ this = PTR64_REBASE -> p64_rebase_ h this = Some p ->
     target this h =
       Some ((imagebase_ this + unpack_target_64 p) mod 2 ^ 64, [])) /\
  (forall p, rtypes_ this = PTR32_REBASE -> p32_rebase_ h this = Some p ->
     target this h =
       Some ((imagebase_ this + details.ptr_32_rebase.target p) mod 2 ^ 64, [])) /\
  (forall p, rtypes_ this = PTR64_REBASE -> p64_rebase_ h this = Some p ->
     imagebase_ this = 0x100000000 ->
     details.ptr_64_rebase.target p = 0x1000 ->
     details.ptr_64_rebase.high8 p = 0 ->
     target this h = Some (0x100001000, [])).
Proof.
  unfold target.
  split; [|split; [|split; [|split]]]; intros p Ht Hp; rewrite Ht, Hp;
    try reflexivity.
  intros Hb Htg Hh. simpl. unfold unpack_target_64, generic64_unpack_target.
  rewrite Hb, Htg, Hh.
  reflexivity.
Qed.

Lemma target_is_base_plus_decoded_example :
  let p := details.ptr_64_rebase.Build 0x1000 0 0 3 0 in
  let this := with_payload (constructor 2 0x100000000) PTR64_REBASE 0 in
  let h := [Some (obj_64_rebase p)] in
  target this h = Some (0x100001000, []).
Proof.
  exact (proj2 (proj2 (proj2 (proj2
    (target_is_base_plus_decoded
       (with_payload (constructor 2 0x100000000) PTR64_REBASE 0)
       [Some (obj_64_rebase (details.ptr_64_rebase.Build 0x1000 0 0 3 0))]))))
    (details.ptr_64_rebase.Build 0x1000 0 0 3 0)
    eq_refl eq_refl eq_refl eq_refl eq_refl).
Defined.

(** C5: on ARM64E_REBASE, ARM64E_AUTH_REBASE and PTR64_REBASE records
    [target(absolute)] first moves the input to relative space,
    relative = absolute - image_base when absolute >= image_base and
    relative = absolute otherwise, and then packs that relative value into
    the payload the record points to; nothing is logged and no other cell of
    the heap changes. *)
Theorem set_target_packs_relative (this : RelocationFixup) (h : heap) (l : nat)
    (absolute relative : Z) :
  payload_ this = Some l ->
  (imagebase_ this <= absolute -> relative = absolute - imagebase_ this) ->
  (absolute < imagebase_ this -> relative = absolute) ->
  (forall p, rtypes_ this = ARM64E_REBASE ->
     h !! l = Some (Some (obj_arm64e_rebase p)) ->
     set_target this absolute h =
       Some (this,
             <[l := Some (obj_arm64e_rebase (pack_target_arm64e p relative))]> h,
             [])) /\
  (forall p, rtypes_ this = ARM64E_AUTH_REBASE ->
     h !! l = Some (Some (obj_arm64e_auth_rebase p)) ->
     set_target this absolute h =
       Some (this,
             <[l := Some (obj_arm64e_auth_rebase
                            (details.arm64e_auth_rebase.assign_target p relative))]> h,
             [])) /\
  (forall p, rtypes_ this = PTR64_REBASE ->
     h !! l = Some (Some (obj_64_rebase p)) ->
     set_target this absolute h =
       Some (this,
             <[l := Some (obj_64_rebase (pack_target_64 p relative))]> h,
             [])).
Proof.
  intros Hp Habove Hbelow.
  assert (Hrel : rel_target this absolute = relative).
  { destruct (Z_le_gt_dec (imagebase_ this) absolute) as [Hle|Hgt].
    - rewrite rel_target_above, Habove by lia. reflexivity.
    - rewrite rel_target_below, Hbelow by lia. reflexivity. }
  rewrite <- Hrel. split; [|split]; intros p Ht Hl.
  - apply set_target_arm64e; assumption.
  - apply set_target_arm64e_auth; assumption.
  - apply set_target_64; assumption.
Qed.

Lemma set_target_packs_relative_example :
  let p := details.ptr_64_rebase.Build 0x1000 0 0 3 0 in
  let this := with_payload (constructor 2 0x100000000) PTR64_REBASE 0 in
  let h := [Some (obj_64_rebase p)] in
  set_target this 0x100002000 h =
    Some (this, [Some (obj_64_rebase (details.ptr_64_rebase.Build 0x2000 0 0 3 0))], []) /\
  set_target this 0x3000 h =
    Some (this, [Some (obj_64_rebase (details.ptr_64_rebase.Build 0x3000 0 0 3 0))], []).
Proof.
  split.
  - refine (proj2 (proj2
      (set_target_packs_relative
         (with_payload (constructor 2 0x100000000) PTR64_REBASE 0)
         [Some (obj_64_rebase (details.ptr_64_rebase.Build 0x1000 0 0 3 0))]
         0%nat 0x100002000 0x2000 eq_refl _ _))
      (details.ptr_64_rebase.Build 0x1000 0 0 3 0) eq_refl eq_refl);
      simpl; lia.
  - refine (proj2 (proj2
      (set_target_packs_relative
         (with_payload (constructor 2 0x100000000) PTR64_REBASE 0)
         [Some (obj_64_rebase (details.ptr_64_rebase.Build 0x1000 0 0 3 0))]
         0%nat 0x3000 0x3000 eq_refl _ _))
      (details.ptr_64_rebase.Build 0x1000 0 0 3 0) eq_refl eq_refl);
      simpl; lia.
Defined.

(** The bits of an authenticated payload above its 32-bit target field do
    not depend on the target. *)
Lemma auth_bits_above_target (p q : dyld_chained_ptr_arm64e_auth_rebase) :
  fits 32 (details.arm64e_auth_rebase.target p) ->
  fits 32 (details.arm64e_auth_rebase.target q) ->
  details.arm64e_auth_rebase.diversity p = details.arm64e_auth_rebase.diversity q ->
  details.arm64e_auth_rebase.addrDiv p = details.arm64e_auth_rebase.addrDiv q ->
  details.arm64e_auth_rebase.key p = details.arm64e_auth_rebase.key q ->
  details.arm64e_auth_rebase.next p = details.arm64e_auth_rebase.next q ->
  details.arm64e_auth_rebase.bind p = details.arm64e_auth_rebase.bind q ->
  details.arm64e_auth_rebase.auth p = details.arm64e_auth_rebase.auth q ->
  Z.shiftr (details.arm64e_auth_rebase.bits p) 32 =
  Z.shiftr (details.arm64e_auth_rebase.bits q) 32.
Proof.
  intros Hp Hq Hd Ha Hk Hn Hb Hau.
  apply Z.bits_inj'. intros n Hn0.
  rewrite !Z.shiftr_spec by lia. unfold details.arm64e_auth_rebase.bits.
  rewrite (Z.lor_spec (details.arm64e_auth_rebase.target p)).
  rewrite (Z.lor_spec (details.arm64e_auth_rebase.target q)).
  rewrite (testbit_above 32 _ (n + 32) ltac:(lia) Hp ltac:(lia)).
  rewrite (testbit_above 32 _ (n + 32) ltac:(lia) Hq ltac:(lia)).
  rewrite Hd, Ha, Hk, Hn, Hb, Hau. reflexivity.
Qed.

(** C7: on an ARM64E_AUTH_REBASE record [target(v)] rewrites the target
    field of the payload and nothing else: diversifier, address-discriminator
    flag, key selector and authentication marker (and the next stride and
    bind bit) keep their values, every bit of the payload above the 32-bit
    target field is unchanged, and no other heap cell is touched. *)
Theorem auth_set_target_keeps_metadata (this : RelocationFixup) (h : heap)
    (l : nat) (p : dyld_chained_ptr_arm64e_auth_rebase) (v : Z) :
  rtypes_ this = ARM64E_AUTH_REBASE ->
  payload_ this = Some l ->
  h !! l = Some (Some (obj_arm64e_auth_rebase p)) ->
  exists p' h',
    set_target this v h = Some (this, h', []) /\
    arm64_auth_rebase_ h' this = Some p' /\
    details.arm64e_auth_rebase.diversity p' = details.arm64e_auth_rebase.diversity p /\
    details.arm64e_auth_rebase.addrDiv p' = details.arm64e_auth_rebase.addrDiv p /\
    details.arm64e_auth_rebase.key p' = details.arm64e_auth_rebase.key p /\
    details.arm64e_auth_rebase.auth p' = details.arm64e_auth_rebase.auth p /\
    details.arm64e_auth_rebase.next p' = details.arm64e_auth_rebase.next p /\
    details.arm64e_auth_rebase.bind p' = details.arm64e_auth_rebase.bind p /\
    (details.arm64e_auth_rebase.wf p ->
     details.arm64e_auth_rebase.wf p' /\
     Z.shiftr (details.arm64e_auth_rebase.bits p') 32 =
     Z.shiftr (details.arm64e_auth_rebase.bits p) 32) /\
    (forall l', l' <> l -> h' !! l' = h !! l').
Proof.
  intros Ht Hp Hl.
  eexists. eexists.
  split; [apply (set_target_arm64e_auth this h l p v Ht Hp Hl)|].
  split.
  { apply typed_load_arm64e_auth. exists l. split; [exact Hp|].
    apply list_lookup_insert_eq. apply lookup_lt_Some in Hl. exact Hl. }
  do 6 (split; [reflexivity|]).
  split.
  - intros (Htg & Hd & Ha & Hk & Hn & Hb & Hau).
    assert (Htg' : fits 32 (bitfield 32 (rel_target this v)))
      by (apply bitfield_range; lia).
    split.
    + unfold details.arm64e_auth_rebase.wf. simpl. tauto.
    + apply auth_bits_above_target; simpl; auto.
  - intros l' Hne. apply list_lookup_insert_ne. congruence.
Qed.

Lemma auth_set_target_keeps_metadata_example :
  let p := details.arm64e_auth_rebase.Build 0x4000 0xBEEF 1 2 5 0 1 in
  let this := with_payload (constructor 1 0x100000000) ARM64E_AUTH_REBASE 1 in
  let h := [None; Some (obj_arm64e_auth_rebase p)] in
  exists p' h',
    set_target this 0x100008000 h = Some (this, h', []) /\
    arm64_auth_rebase_ h' this = Some p' /\
    details.arm64e_auth_rebase.diversity p' = 0xBEEF /\
    details.arm64e_auth_rebase.addrDiv p' = 1 /\
    details.arm64e_auth_rebase.key p' = 2 /\
    details.arm64e_auth_rebase.auth p' = 1 /\
    details.arm64e_auth_rebase.next p' = 5 /\
    details.arm64e_auth_rebase.bind p' = 0 /\
    (details.arm64e_auth_rebase.wf p ->
     details.arm64e_auth_rebase.wf p' /\
     Z.shiftr (details.arm64e_auth_rebase.bits p') 32 =
     Z.shiftr (details.arm64e_auth_rebase.bits p) 32) /\
    (forall l', l' <> 1%nat -> h' !! l' = h !! l').
Proof.
  exact (auth_set_target_keeps_metadata
           (with_payload (constructor 1 0x100000000) ARM64E_AUTH_REBASE 1)
           [None; Some (obj_arm64e_auth_rebase
                          (details.arm64e_auth_rebase.Build 0x4000 0xBEEF 1 2 5 0 1))]
           1%nat (details.arm64e_auth_rebase.Build 0x4000 0xBEEF 1 2 5 0 1)
           0x100008000 eq_refl eq_refl eq_refl).
Defined.

(** C2, as amended: on ARM64E_REBASE, ARM64E_AUTH_REBASE and PTR64_REBASE
    records, for every 64-bit v >= image_base whose relative value
    v - image_base the encoding's target bits can hold, [target(v)] followed
    by [target()] returns v exactly. *)
Theorem set_target_then_target (this : RelocationFixup) (h : heap) (v : Z) :
  rtypes_ this = ARM64E_REBASE \/ rtypes_ this = ARM64E_AUTH_REBASE \/
  rtypes_ this = PTR64_REBASE ->
  consistent this h ->
  in_u64 v ->
  0 <= imagebase_ this <= v ->
  representable (rtypes_ this) (v - imagebase_ this) ->
  exists h', set_target this v h = Some (this, h', []) /\
             target this h' = Some (v, []).
Proof.
  intros Henc Hc Hv Hb Hr. unfold consistent in Hc.
  assert (Hrel : rel_target this v = v - imagebase_ this)
    by (apply rel_target_above; lia).
  assert (Hsum : add64 (imagebase_ this) (v - imagebase_ this) = v).
  { unfold add64. replace (imagebase_ this + (v - imagebase_ this)) with v by lia.
    apply u64_small. exact Hv. }
  destruct Henc as [Ht|[Ht|Ht]]; rewrite Ht in Hc, Hr; destruct Hc as [p Hp].
  - apply typed_load_arm64e in Hp as (l & Hl & Hcell).
    eexists. split; [apply (set_target_arm64e this h l p v Ht Hl Hcell)|].
    unfold target, arm64_rebase_. rewrite Ht, Hl.
    rewrite (load_store h l _ _ Hcell). simpl.
    rewrite Hrel, unpack_pack_arm64e, Hsum by exact Hr. reflexivity.
  - apply typed_load_arm64e_auth in Hp as (l & Hl & Hcell).
    eexists. split; [apply (set_target_arm64e_auth this h l p v Ht Hl Hcell)|].
    unfold target, arm64_auth_rebase_. rewrite Ht, Hl.
    rewrite (load_store h l _ _ Hcell). simpl.
    rewrite Hrel, bitfield_small, Hsum by (lia || exact Hr). reflexivity.
  - apply typed_load_64 in Hp as (l & Hl & Hcell).
    eexists. split; [apply (set_target_64 this h l p v Ht Hl Hcell)|].
    unfold target, p64_rebase_. rewrite Ht, Hl.
    rewrite (load_store h l _ _ Hcell). simpl.
    rewrite Hrel, unpack_pack_64, Hsum by exact Hr. reflexivity.
Qed.

Lemma set_target_then_target_example :
  let p := details.ptr_64_rebase.Build 0 0 0 3 0 in
  let this := with_payload (constructor 2 0x100000000) PTR64_REBASE 0 in
  let h := [Some (obj_64_rebase p)] in
  exists h', set_target this 0xAB00000100001000 h = Some (this, h', []) /\
             target this h' = Some (0xAB00000100001000, []).
Proof.
  cbv zeta.
  apply (set_target_then_target
           (with_payload (constructor 2 0x100000000) PTR64_REBASE 0)
           [Some (obj_64_rebase (details.ptr_64_rebase.Build 0 0 0 3 0))]
           0xAB00000100001000).
  - right. right. reflexivity.
  - simpl. eexists. reflexivity.
  - unfold in_u64. lia.
  - simpl. lia.
  - simpl. split; [unfold in_u64; lia | reflexivity].
Defined.

(** C2, as stated, fails: an ARM64E_AUTH_REBASE record with image base
    0x100000000 is given [target(0x8000000100000000)], a value above the image
    base whose relative value is 2^63.  The target field is narrower than the
    64-bit payload it shares with the authentication fields (32 bits), so the
    store keeps 0, and [target()] then returns 0x100000000. *)
Lemma set_target_then_target_auth_truncates :
  let p := details.arm64e_auth_rebase.Build 0x4000 0xBEEF 1 2 5 0 1 in
  let this := with_payload (constructor 1 0x100000000) ARM64E_AUTH_REBASE 0 in
  let h := [Some (obj_arm64e_auth_rebase p)] in
  let v := 0x8000000100000000 in
  rtypes_ this = ARM64E_AUTH_REBASE /\
  consistent this h /\
  imagebase_ this <= v /\
  in_u64 v /\
  exists h', set_target this v h = Some (this, h', []) /\
             target this h' = Some (0x100000000, []) /\
             target this h' <> Some (v, []).
Proof.
  cbv zeta. split; [reflexivity|]. split; [simpl; eexists; reflexivity|].
  split; [simpl; lia|]. split; [unfold in_u64; lia|].
  eexists. split; [reflexivity|]. split; [reflexivity|]. discriminate.
Qed.

(** The two bit-scattered encodings lose the bits between the low target
    field and the top byte in the same way. *)
Example set_target_then_target_64_truncates :
  let p := details.ptr_64_rebase.Build 0 0 0 3 0 in
  let this := with_payload (constructor 2 0) PTR64_REBASE 0 in
  let h := [Some (obj_64_rebase p)] in
  exists h', set_target this (2 ^ 36) h = Some (this, h', []) /\
             target this h' = Some (0, []).
Proof. cbv zeta. eexists. split; reflexivity. Qed.

Example set_target_then_target_arm64e_truncates :
  let p := details.arm64e_rebase.Build 0 0 3 0 0 in
  let this := with_payload (constructor 1 0) ARM64E_REBASE 0 in
  let h := [Some (obj_arm64e_rebase p)] in
  exists h', set_target this (2 ^ 43) h = Some (this, h', []) /\
             target this h' = Some (0, []).
Proof. cbv zeta. eexists. split; reflexivity. Qed.

(** The condition of the amended C2 is also necessary: when [target(v)]
    followed by [target()] gives back a 64-bit v >= image_base, the relative
    value fits the target bits of the encoding. *)
Lemma set_target_then_target_only_if (this : RelocationFixup) (h h' : heap) (v : Z) :
  rtypes_ this = ARM64E_REBASE \/ rtypes_ this = ARM64E_AUTH_REBASE \/
  rtypes_ this = PTR64_REBASE ->
  in_u64 v ->
  0 <= imagebase_ this <= v ->
  set_target this v h = Some (this, h', []) ->
  target this h' = Some (v, []) ->
  representable (rtypes_ this) (v - imagebase_ this).
Proof.
  intros Henc Hv Hb Hset Hget.
  assert (Hrel : rel_target this v = v - imagebase_ this)
    by (apply rel_target_above; lia).
  assert (Hin : in_u64 (v - imagebase_ this)) by (unfold in_u64 in *; lia).
  assert (Hsum : in_u64 (imagebase_ this + (v - imagebase_ this))).
  { replace (imagebase_ this + (v - imagebase_ this)) with v by lia. exact Hv. }
  assert (Hv' : v = imagebase_ this + (v - imagebase_ this)) by lia.
  destruct Henc as [Ht|[Ht|Ht]]; rewrite Ht.
  - destruct (arm64_rebase_ h this) as [p|] eqn:Hp;
      [|unfold set_target in Hset; rewrite Ht, Hp in Hset; discriminate].
    apply typed_load_arm64e in Hp as (l & Hl & Hcell).
    rewrite (set_target_arm64e this h l p v Ht Hl Hcell) in Hset.
    injection Hset as <-.
    unfold target, arm64_rebase_ in Hget. rewrite Ht, Hl in Hget.
    rewrite (load_store h l _ _ Hcell), Hrel in Hget. simpl in Hget.
    injection Hget as Hget. rewrite Hv' in Hget at 2.
    apply add64_cancel in Hget;
      [|apply u64_range|lia|lia|exact Hsum].
    split; [exact Hin|].
    apply (gather_scatter_only_if 43); [lia|exact Hget].
  - destruct (arm64_auth_rebase_ h this) as [p|] eqn:Hp;
      [|unfold set_target in Hset; rewrite Ht, Hp in Hset; discriminate].
    apply typed_load_arm64e_auth in Hp as (l & Hl & Hcell).
    rewrite (set_target_arm64e_auth this h l p v Ht Hl Hcell) in Hset.
    injection Hset as <-.
    unfold target, arm64_auth_rebase_ in Hget. rewrite Ht, Hl in Hget.
    rewrite (load_store h l _ _ Hcell), Hrel in Hget. simpl in Hget.
    injection Hget as Hget. rewrite Hv' in Hget at 2.
    pose proof (bitfield_range 32 (v - imagebase_ this) ltac:(lia)) as Hfit.
    apply add64_cancel in Hget;
      [|unfold fits, in_u64 in *; lia|lia|lia|exact Hsum].
    rewrite <- Hget. exact Hfit.
  - destruct (p64_rebase_ h this) as [p|] eqn:Hp;
      [|unfold set_target in Hset; rewrite Ht, Hp in Hset; discriminate].
    apply typed_load_64 in Hp as (l & Hl & Hcell).
    rewrite (set_target_64 this h l p v Ht Hl Hcell) in Hset.
    injection Hset as <-.
    unfold target, p64_rebase_ in Hget. rewrite Ht, Hl in Hget.
    rewrite (load_store h l _ _ Hcell), Hrel in Hget. simpl in Hget.
    injection Hget as Hget. rewrite Hv' in Hget at 2.
    apply add64_cancel in Hget;
      [|apply u64_range|lia|lia|exact Hsum].
    split; [exact Hin|].
    apply (gather_scatter_only_if 36); [lia|exact Hget].
Qed.

(** ** Ownership of the payload *)

Lemma new_keeps (h : heap) (o : object) (l : nat) (c : option object) :
  h !! l = Some c ->
  (new o h).2 !! l = Some c /\ (new o h).1 <> l.
Proof.
  intros Hl. pose proof (lookup_lt_Some _ _ _ Hl) as Hlt. unfold new. simpl.
  split; [|lia]. rewrite lookup_app_l by exact Hlt. exact Hl.
Qed.

(** Each [set] overload allocates the new payload and overwrites the pointer;
    the cell the record pointed to stays alive and is no longer referenced. *)
Lemma set_keeps_previous_payload (this : RelocationFixup) (h : heap) (l : nat)
    (o : object) :
  payload_ this = Some l -> h !! l = Some (Some o) ->
  (forall fixup,
     (set_arm64e_rebase this fixup h).2 !! l = Some (Some o) /\
     payload_ (set_arm64e_rebase this fixup h).1 <> Some l) /\
  (forall fixup,
     (set_arm64e_auth_rebase this fixup h).2 !! l = Some (Some o) /\
     payload_ (set_arm64e_auth_rebase this fixup h).1 <> Some l) /\
  (forall fixup,
     (set_64_rebase this fixup h).2 !! l = Some (Some o) /\
     payload_ (set_64_rebase this fixup h).1 <> Some l) /\
  (forall fixup,
     (set_32_rebase this fixup h).2 !! l = Some (Some o) /\
     payload_ (set_32_rebase this fixup h).1 <> Some l).
Proof.
  intros Hp Hl.
  split; [|split; [|split]]; intros fixup;
    unfold set_arm64e_rebase, set_arm64e_auth_rebase, set_64_rebase, set_32_rebase;
    match goal with
    | |- context [new ?c h] =>
        destruct (new_keeps h c l _ Hl) as [Hkeep Hne];
        destruct (new c h) as [l' h'] eqn:Hnew
    end; simpl in *; (split; [exact Hkeep | congruence]).
Qed.

(** Copy assignment from a different, populated record does the same. *)
Lemma operator_assign_keeps_previous_payload (this other : ref) (h h' : heap)
    (this' : RelocationFixup) (l : nat) (o : object) :
  addr this <> addr other ->
  rtypes_ (deref other) <> UNKNOWN ->
  payload_ (deref this) = Some l -> h !! l = Some (Some o) ->
  operator_assign this other h = Some (this', h') ->
  h' !! l = Some (Some o) /\ payload_ this' <> Some l.
Proof.
  intros Haddr Hknown Hp Hl. unfold operator_assign.
  destruct (Nat.eqb_spec (addr this) (addr other)) as [|_]; [contradiction|].
  unfold copy_payload. simpl.
  destruct (rtypes_ (deref other)); [contradiction | | | |];
    match goal with
    | |- (?x ≫= _) = _ -> _ => destruct x as [p|]; simpl; [|discriminate]
    end;
    intros [= <- <-]; pose proof (lookup_lt_Some _ _ _ Hl) as Hlt;
    (split; [rewrite lookup_app_l by exact Hlt; exact Hl
            | simpl; intros [= ?]; lia]).
Qed.

(** C8, the code at a failing input: a record populated with a 64-bit rebase
    payload (cell 0) is given a second payload with [set]; cell 0 stays alive
    and unreferenced, two payloads are alive, and destroying the record
    releases only the second.  Copy-assigning an authenticated record over a
    populated 64-bit one abandons cell 0 the same way. *)
Theorem overwrite_leaks_previous_payload :
  let p1 := details.ptr_64_rebase.Build 0x1000 0 0 3 0 in
  let p2 := details.ptr_64_rebase.Build 0x2000 0 0 0 0 in
  let q := details.arm64e_auth_rebase.Build 0x4000 0xBEEF 1 2 5 0 1 in
  let '(r1, h1) := set_64_rebase (constructor 2 0x100000000) p1 [] in
  let '(r2, h2) := set_64_rebase r1 p2 h1 in
  let '(o1, g1) := set_arm64e_auth_rebase (constructor 1 0) q h1 in
  (payload_ r1 = Some 0%nat /\ live h1 = [0%nat]) /\
  (payload_ r2 = Some 1%nat /\ live h2 = [0%nat; 1%nat] /\
   h2 !! 0%nat = Some (Some (obj_64_rebase p1)) /\
   destructor r2 h2 = Some [Some (obj_64_rebase p1); None]) /\
  (exists r3 g2,
     operator_assign (Ref 0 r1) (Ref 1 o1) g1 = Some (r3, g2) /\
     rtypes_ r3 = ARM64E_AUTH_REBASE /\ payload_ r3 = Some 2%nat /\
     live g2 = [0%nat; 1%nat; 2%nat] /\
     g2 !! 0%nat = Some (Some (obj_64_rebase p1)) /\
     (g3 ← destructor r3 g2; destructor o1 g3) =
       Some [Some (obj_64_rebase p1); None; None]).
Proof.
  cbv zeta. simpl. split; [split; reflexivity|].
  split; [repeat split|].
  eexists. eexists. repeat split.
Qed.

(** ** Equality and copies *)

Lemma load_app (h k : heap) (p : pointer) (o : object) :
  load h p = Some o -> load (h ++ k) p = Some o.
Proof.
  destruct p as [l|]; [|discriminate]. rewrite !load_Some. intros H.
  rewrite lookup_app_l; [exact H|]. apply lookup_lt_Some in H. exact H.
Qed.

Lemma typed_load_app {A : Type} (f : object -> option A) (h k : heap)
    (p : pointer) (x : A) :
  load h p ≫= f = Some x -> load (h ++ k) p ≫= f = Some x.
Proof.
  destruct (load h p) as [o|] eqn:Hload; [|discriminate].
  rewrite (load_app h k p o Hload). trivial.
Qed.

(** Allocating does not change what a consistent record's fingerprint covers. *)
Lemma content_app (this : RelocationFixup) (h k : heap) (c : list Z) :
  content this h = Some c -> content this (h ++ k) = Some c.
Proof.
  unfold content, payload_bits.
  destruct (rtypes_ this); trivial;
    match goal with
    | |- (?x ≫= _) ≫= _ = _ -> _ => destruct x as [p|] eqn:Hp; [|discriminate]
    end;
    (apply (typed_load_app _ h k) in Hp; [idtac]);
    unfold arm64_rebase_, arm64_auth_rebase_, p64_rebase_, p32_rebase_;
    rewrite Hp; trivial.
Qed.

Lemma consistent_content (this : RelocationFixup) (h : heap) :
  consistent this h -> is_Some (content this h).
Proof.
  unfold consistent, content, payload_bits.
  destruct (rtypes_ this); try (intros [p ->]); simpl; eauto.
Qed.

Lemma load_snoc (h : heap) (o : object) :
  load (h ++ [Some o]) (Some (length h)) = Some o.
Proof. exact (load_new h o). Qed.

(** One case of the copying switch: [inv] is the inversion lemma of the
    typed pointer the case reads. *)
Ltac copy_case inv Hc Hother Ho Hb Hcontent :=
  let p := fresh "p" in
  let Hp := fresh "Hp" in
  let l := fresh "l" in
  let Hl := fresh "Hl" in
  let Hcell := fresh "Hcell" in
  destruct Hc as [p Hp]; rewrite Hp; simpl;
  pose proof (proj1 (inv _ _ _) Hp) as (l & Hl & Hcell);
  apply lookup_lt_Some in Hcell;
  eexists; eexists; split; [reflexivity|];
  split; [|split; [|split; [|split]]];
  [ rewrite (content_app _ _ _ _ Hcontent);
    unfold content, payload_bits in Hcontent; rewrite Hother, Hp in Hcontent;
    unfold content, payload_bits,
      arm64_rebase_, arm64_auth_rebase_, p64_rebase_, p32_rebase_;
    cbn [rtypes_ payload_ offset_ imagebase_ with_payload];
    rewrite load_snoc, Ho, Hb; exact Hcontent
  | rewrite Hcontent; apply content_app; exact Hcontent
  | unfold consistent, arm64_rebase_, arm64_auth_rebase_, p64_rebase_, p32_rebase_;
    cbn [rtypes_ payload_ with_payload]; rewrite load_snoc; simpl; eauto
  | reflexivity
  | simpl; rewrite Hl; intros [= ?]; lia ].

(** The copy made by [copy_payload] has the fingerprint content of [other]
    whenever its scalar members and discriminator are those of [other]. *)
Lemma copy_payload_content (this other : RelocationFixup) (h : heap) :
  rtypes_ this = rtypes_ other ->
  offset_ this = offset_ other ->
  imagebase_ this = imagebase_ other ->
  consistent other h ->
  exists this' h',
    copy_payload this other h = Some (this', h') /\
    content this' h' = content other h' /\
    content other h' = content other h /\
    consistent this' h' /\
    (rtypes_ other <> UNKNOWN ->
     payload_ this' = Some (length h) /\ payload_ this' <> payload_ other).
Proof.
  intros Ht Ho Hb Hc.
  destruct (consistent_content other h Hc) as [c Hcontent].
  unfold copy_payload. rewrite Ht.
  unfold consistent in Hc.
  destruct (rtypes_ other) eqn:Hother.
  - exists this, h. repeat split; try contradiction.
    + unfold content, payload_bits. rewrite Ht, Hother, Ho, Hb. reflexivity.
    + unfold consistent. rewrite Ht. exact I.
  - copy_case typed_load_arm64e Hc Hother Ho Hb Hcontent.
  - copy_case typed_load_arm64e_auth Hc Hother Ho Hb Hcontent.
  - copy_case typed_load_64 Hc Hother Ho Hb Hcontent.
  - copy_case typed_load_32 Hc Hother Ho Hb Hcontent.
Qed.

Section EqualityProperties.

Variable process : list Z -> Z.

Lemma consistent_Hash_hash (this : RelocationFixup) (h : heap) :
  consistent this h -> is_Some (Hash_hash process this h).
Proof.
  intros Hc. destruct (consistent_content this h Hc) as [c Hcontent].
  unfold Hash_hash. rewrite Hcontent. simpl. eauto.
Qed.

(** Records with the same content compare equal, wherever they and their
    payloads are stored. *)
Lemma operator_eq_same_content (this rhs : ref) (h : heap) (c : list Z) :
  content (deref this) h = Some c ->
  content (deref rhs) h = Some c ->
  exists n, operator_eq process this rhs h = Some (true, n).
Proof.
  intros Hx Hy. unfold operator_eq, Hash_hash.
  destruct (Nat.eqb (addr this) (addr rhs)); [eauto|].
  rewrite Hx, Hy. simpl. rewrite Z.eqb_refl. eauto.
Qed.

(** C9: [a == b] holds exactly when the fingerprints [Hash::hash] of the two
    records are equal; when both are the same object the answer is true and
    no fingerprint is computed, otherwise two are; the answer does not depend
    on where the payloads are stored: a clone, whose payload is a fresh
    allocation, compares equal to the original in both directions, and after
    copy assignment the assigned record compares equal to its source. *)
Theorem equality_is_fingerprint_equality (this rhs : ref) (h : heap) :
  consistent (deref this) h ->
  consistent (deref rhs) h ->
  (addr this = addr rhs -> deref this = deref rhs) ->
  (exists b n,
     operator_eq process this rhs h = Some (b, n) /\
     (b = true <->
      Hash_hash process (deref this) h = Hash_hash process (deref rhs) h)) /\
  (addr this = addr rhs -> operator_eq process this rhs h = Some (true, 0%nat)) /\
  (addr this <> addr rhs ->
   exists b, operator_eq process this rhs h = Some (b, 2%nat)) /\
  (exists c h',
     clone (deref this) h = Some (c, h') /\
     (rtypes_ (deref this) <> UNKNOWN -> payload_ c <> payload_ (deref this)) /\
     forall a, exists n1 n2,
       operator_eq process (Ref a c) this h' = Some (true, n1) /\
       operator_eq process this (Ref a c) h' = Some (true, n2)) /\
  (exists this' h',
     operator_assign this rhs h = Some (this', h') /\
     exists n, operator_eq process (Ref (addr this) this') rhs h' = Some (true, n)).
Proof.
  intros Hthis Hrhs Halias.
  destruct (consistent_Hash_hash _ _ Hthis) as [x Hx].
  destruct (consistent_Hash_hash _ _ Hrhs) as [y Hy].
  split; [|split; [|split; [|split]]].
  - unfold operator_eq.
    destruct (Nat.eqb_spec (addr this) (addr rhs)) as [Heq|Hne].
    + exists true, 0%nat. split; [reflexivity|].
      rewrite (Halias Heq). tauto.
    + rewrite Hx, Hy. simpl. exists (x =? y), 2%nat. split; [reflexivity|].
      rewrite Z.eqb_eq. split; [intros ->; reflexivity | intros [= ->]; reflexivity].
  - intros Heq. unfold operator_eq.
    rewrite (proj2 (Nat.eqb_eq _ _) Heq). reflexivity.
  - intros Hne. unfold operator_eq.
    rewrite (proj2 (Nat.eqb_neq _ _) Hne), Hx, Hy. simpl. eauto.
  - destruct (consistent_content _ _ Hthis) as [c Hc].
    destruct (copy_payload_content
                {| ptr_fmt_ := ptr_fmt_ (deref this);
                   imagebase_ := imagebase_ (deref this);
                   offset_ := offset_ (deref this);
                   rtypes_ := rtypes_ (deref this);
                   payload_ := None |}
                (deref this) h eq_refl eq_refl eq_refl Hthis)
      as (c' & h' & Hcopy & Hsame & Hkeep & _ & Hfresh).
    exists c', h'. split; [exact Hcopy|].
    split; [intros Hk; apply (Hfresh Hk)|].
    rewrite Hkeep, Hc in Hsame. rewrite Hc in Hkeep.
    intros a.
    destruct (operator_eq_same_content (Ref a c') this h' c Hsame Hkeep) as [n1 H1].
    destruct (operator_eq_same_content this (Ref a c') h' c Hkeep Hsame) as [n2 H2].
    eauto.
  - unfold operator_assign.
    destruct (Nat.eqb_spec (addr this) (addr rhs)) as [Heq|Hne].
    + exists (deref this), h. split; [reflexivity|].
      exists 0%nat. unfold operator_eq. simpl.
      rewrite (proj2 (Nat.eqb_eq _ _) Heq). reflexivity.
    + destruct (consistent_content _ _ Hrhs) as [c Hc].
      destruct (copy_payload_content
                  {| ptr_fmt_ := ptr_fmt_ (deref rhs);
                     imagebase_ := imagebase_ (deref rhs);
                     offset_ := offset_ (deref rhs);
                     rtypes_ := rtypes_ (deref rhs);
                     payload_ := payload_ (deref this) |}
                  (deref rhs) h eq_refl eq_refl eq_refl Hrhs)
        as (c' & h' & Hcopy & Hsame & Hkeep & _ & _).
      exists c', h'. split; [exact Hcopy|].
      rewrite Hkeep, Hc in Hsame. rewrite Hc in Hkeep.
      apply (operator_eq_same_content (Ref (addr this) c') rhs h' c Hsame Hkeep).
Qed.

End EqualityProperties.

Lemma equality_is_fingerprint_equality_example :
  let p := details.ptr_64_rebase.Build 0x1000 0 0 3 0 in
  let a := Ref 0 (with_payload (constructor 2 0x100000000) PTR64_REBASE 0) in
  let b := Ref 1 (with_payload (constructor 2 0x100000000) PTR64_REBASE 1) in
  let h := [Some (obj_64_rebase p); Some (obj_64_rebase p)] in
  exists r n,
    operator_eq sample_process a b h = Some (r, n) /\
    (r = true <->
     Hash_hash sample_process (deref a) h = Hash_hash sample_process (deref b) h).
Proof.
  cbv zeta.
  apply (equality_is_fingerprint_equality sample_process
           (Ref 0 (with_payload (constructor 2 0x100000000) PTR64_REBASE 0))
           (Ref 1 (with_payload (constructor 2 0x100000000) PTR64_REBASE 1))
           [Some (obj_64_rebase (details.ptr_64_rebase.Build 0x1000 0 0 3 0));
            Some (obj_64_rebase (details.ptr_64_rebase.Build 0x1000 0 0 3 0))]).
  - simpl. eexists. reflexivity.
  - simpl. eexists. reflexivity.
  - simpl. intros H. discriminate H.
Defined.

(** Distinct objects with different contents and different fingerprints
    compare unequal; the same record under one address compares equal
    without any fingerprint. *)
Example operator_eq_runs :
  let p := details.ptr_64_rebase.Build 0x1000 0 0 3 0 in
  let q := details.ptr_64_rebase.Build 0x2000 0 0 3 0 in
  let a := with_payload (constructor 2 0x100000000) PTR64_REBASE 0 in
  let b := with_payload (constructor 2 0x100000000) PTR64_REBASE 1 in
  let h := [Some (obj_64_rebase p); Some (obj_64_rebase q)] in
  operator_eq sample_process (Ref 0 a) (Ref 1 b) h = Some (false, 2%nat) /\
  operator_eq sample_process (Ref 0 a) (Ref 0 a) h = Some (true, 0%nat) /\
  operator_ne sample_process (Ref 0 a) (Ref 1 b) h = Some true.
Proof. cbv zeta. repeat split; vm_compute; reflexivity. Qed.

(** * Further properties *)

(** ** Live allocations *)

Lemma elem_of_live_from (h : heap) (n l : nat) :
  l ∈ live_from n h <->
  (n <= l)%nat /\ exists o, h !! (l - n)%nat = Some (Some o).
Proof.
  revert n. induction h as [|c h IH]; intros n; simpl.
  - split; [intros H; inversion H|]. intros (_ & o & H). discriminate.
  - assert (Htail : forall k, (S n <= k)%nat ->
              (c :: h) !! (k - n)%nat = h !! (k - S n)%nat).
    { intros k Hk. replace (k - n)%nat with (S (k - S n)) by lia. reflexivity. }
    destruct c as [o0|].
    + rewrite elem_of_cons, IH. split.
      * intros [->|(Hle & o & Hl)].
        -- split; [lia|]. exists o0. rewrite Nat.sub_diag. reflexivity.
        -- split; [lia|]. exists o. rewrite Htail by lia. exact Hl.
      * intros (Hle & o & Hl).
        destruct (decide (l = n)) as [->|Hne]; [left; reflexivity|].
        right. split; [lia|]. exists o. rewrite <- Htail by lia. exact Hl.
    + rewrite IH. split.
      * intros (Hle & o & Hl). split; [lia|]. exists o.
        rewrite Htail by lia. exact Hl.
      * intros (Hle & o & Hl).
        destruct (decide (l = n)) as [->|Hne].
        -- rewrite Nat.sub_diag in Hl. discriminate.
        -- split; [lia|]. exists o. rewrite <- Htail by lia. exact Hl.
Qed.

(** An address is alive exactly when its cell holds an object. *)
Lemma elem_of_live (h : heap) (l : nat) :
  l ∈ live h <-> exists o, h !! l = Some (Some o).
Proof.
  unfold live. rewrite elem_of_live_from, Nat.sub_0_r.
  split; [intros [_ H]; exact H | intros H; split; [lia|exact H]].
Qed.

Lemma live_from_app (h k : heap) (n : nat) :
  live_from n (h ++ k) = live_from n h ++ live_from (n + length h) k.
Proof.
  revert n. induction h as [|c h IH]; intros n; simpl.
  - rewrite Nat.add_0_r. reflexivity.
  - rewrite IH. replace (S n + length h)%nat with (n + S (length h))%nat by lia.
    destruct c; reflexivity.
Qed.

Lemma live_snoc_Some (h : heap) (o : object) :
  live (h ++ [Some o]) = live h ++ [length h].
Proof. unfold live. rewrite live_from_app. reflexivity. Qed.

Lemma live_snoc_None (h : heap) : live (h ++ [None]) = live h.
Proof. unfold live. rewrite live_from_app. simpl. apply app_nil_r. Qed.

(** Overwriting a live cell with an object keeps the live addresses. *)
Lemma live_from_insert_Some (h : heap) (n l : nat) (o0 o : object) :
  h !! l = Some (Some o0) ->
  live_from n (<[l := Some o]> h) = live_from n h.
Proof.
  revert n l. induction h as [|c h IH]; intros n l Hl; [discriminate|].
  destruct l as [|l]; simpl in *.
  - injection Hl as ->. reflexivity.
  - rewrite (IH (S n) l Hl). reflexivity.
Qed.

(** ** Reading through the payload pointer *)

(** Two records with the same discriminator and image base whose pointers
    reach the same object decode the same target. *)
Lemma target_same_object (a b : RelocationFixup) (h1 h2 : heap) :
  rtypes_ a = rtypes_ b -> imagebase_ a = imagebase_ b ->
  load h1 (payload_ a) = load h2 (payload_ b) ->
  target a h1 = target b h2.
Proof.
  intros Ht Hb Hload.
  unfold target, arm64_rebase_, arm64_auth_rebase_, p64_rebase_, p32_rebase_.
  rewrite Ht, Hb, Hload. reflexivity.
Qed.

Lemma consistent_same_object (a b : RelocationFixup) (h1 h2 : heap) :
  rtypes_ a = rtypes_ b ->
  load h1 (payload_ a) = load h2 (payload_ b) ->
  consistent a h1 -> consistent b h2.
Proof.
  intros Ht Hload.
  unfold consistent, arm64_rebase_, arm64_auth_rebase_, p64_rebase_, p32_rebase_.
  rewrite Ht, Hload. trivial.
Qed.

(** A populated, consistent record points to a live cell. *)
Lemma consistent_populated (this : RelocationFixup) (h : heap) :
  rtypes_ this <> UNKNOWN -> consistent this h ->
  exists l o, payload_ this = Some l /\ h !! l = Some (Some o).
Proof.
  unfold consistent. intros Hk Hc.
  destruct (rtypes_ this); [contradiction| | | |]; destruct Hc as [p Hp].
  - apply typed_load_arm64e in Hp as (l & Hl & Hcell). eauto.
  - apply typed_load_arm64e_auth in Hp as (l & Hl & Hcell). eauto.
  - apply typed_load_64 in Hp as (l & Hl & Hcell). eauto.
  - apply typed_load_32 in Hp as (l & Hl & Hcell). eauto.
Qed.

Lemma load_insert_ne (h : heap) (l : nat) (c : option object) (p : pointer) :
  p <> Some l -> load (<[l := c]> h) p = load h p.
Proof.
  intros Hne. destruct p as [l'|]; [|reflexivity]. unfold load. simpl.
  rewrite list_lookup_insert_ne by congruence. reflexivity.
Qed.

(** ** What the setter touches *)

(** One case of the setter that stores: [inv] inverts the typed pointer,
    [step] is the equation of the setter for that encoding. *)
Ltac store_case inv step Hc Ht :=
  let p := fresh "p" in
  let Hp := fresh "Hp" in
  let l := fresh "l" in
  let Hl := fresh "Hl" in
  let Hcell := fresh "Hcell" in
  destruct Hc as [p Hp];
  apply inv in Hp as (l & Hl & Hcell);
  eexists; exists [];
  split; [apply (step _ _ l p _ Ht Hl Hcell)|];
  split;
  [ unfold consistent; rewrite Ht; eexists; apply inv; exists l;
    split; [exact Hl|];
    apply list_lookup_insert_eq; apply lookup_lt_Some in Hcell; exact Hcell
  | split; [apply length_insert|];
    split; [apply (live_from_insert_Some _ _ _ _ _ Hcell)|];
    intros l' Hne; apply list_lookup_insert_ne; congruence ].

(** On a consistent record the setter always returns; it keeps the record,
    its consistency, the size of the heap and the live addresses, and writes
    no cell but the record's own payload. *)
Lemma set_target_step (this : RelocationFixup) (v : Z) (h : heap) :
  consistent this h ->
  exists h' log,
    set_target this v h = Some (this, h', log) /\
    consistent this h' /\
    length h' = length h /\
    live h' = live h /\
    (forall l, payload_ this <> Some l -> h' !! l = h !! l).
Proof.
  intros Hc. pose proof Hc as Hc0. unfold consistent in Hc.
  destruct (rtypes_ this) eqn:Ht.
  - exists h. eexists. unfold set_target. rewrite Ht.
    split; [reflexivity|]. auto.
  - store_case typed_load_arm64e set_target_arm64e Hc Ht.
  - store_case typed_load_arm64e_auth set_target_arm64e_auth Hc Ht.
  - store_case typed_load_64 set_target_64 Hc Ht.
  - exists h. eexists. unfold set_target. rewrite Ht.
    split; [reflexivity|]. auto.
Qed.

Lemma load_frame (h h' : heap) (p q : pointer) :
  (forall l, p <> Some l -> h' !! l = h !! l) ->
  q <> p -> load h' q = load h q.
Proof.
  intros Hframe Hne. destruct q as [l|]; [|reflexivity].
  unfold load. simpl. rewrite Hframe by congruence. reflexivity.
Qed.

(** X8: on a consistent record [target(v)] always returns, for every v and
    every encoding.  It leaves the members of the record, its consistency
    and its address alone, allocates and frees nothing, writes no heap cell
    but the record's own payload, so that every record with another payload
    pointer decodes the same target as before, and logs at most one entry. *)
Theorem set_target_touches_only_own_payload (this : RelocationFixup) (v : Z)
    (h : heap) :
  consistent this h ->
  exists h' log,
    set_target this v h = Some (this, h', log) /\
    consistent this h' /\
    length h' = length h /\
    live h' = live h /\
    (forall l, payload_ this <> Some l -> h' !! l = h !! l) /\
    (forall other, payload_ other <> payload_ this ->
       target other h' = target other h /\
       (consistent other h -> consistent other h')) /\
    (length log <= 1)%nat.
Proof.
  intros Hc.
  destruct (set_target_step this v h Hc) as (h' & log & Hset & Hc' & Hlen & Hlive & Hframe).
  exists h', log. repeat (split; [assumption|]).
  split.
  - intros other Hne.
    pose proof (load_frame h h' (payload_ this) (payload_ other) Hframe Hne) as Hload.
    split.
    + apply target_same_object; auto.
    + apply consistent_same_object; auto.
  - unfold set_target in Hset.
    destruct (rtypes_ this);
      repeat match type of Hset with
             | context [mbind _ ?x] => destruct x; simpl in Hset
             end;
      try discriminate; inversion Hset; simpl; lia.
Qed.

Lemma set_target_touches_only_own_payload_example :
  let p := details.arm64e_auth_rebase.Build 0x4000 0xBEEF 1 2 5 0 1 in
  let q := details.ptr_32_rebase.Build 0x4000 1 0 in
  let this := with_payload (constructor 1 0x100000000) ARM64E_AUTH_REBASE 0 in
  let h := [Some (obj_arm64e_auth_rebase p); Some (obj_32_rebase q)] in
  exists h' log,
    set_target this 0x100008000 h = Some (this, h', log) /\
    consistent this h' /\
    length h' = length h /\
    live h' = live h /\
    (forall l, payload_ this <> Some l -> h' !! l = h !! l) /\
    (forall other, payload_ other <> payload_ this ->
       target other h' = target other h /\
       (consistent other h -> consistent other h')) /\
    (length log <= 1)%nat.
Proof.
  cbv zeta.
  apply (set_target_touches_only_own_payload
           (with_payload (constructor 1 0x100000000) ARM64E_AUTH_REBASE 0)
           0x100008000).
  simpl. eexists. reflexivity.
Defined.

(** ** Address and target are independent *)

Lemma set_addresses_members (offset_bits : Z) (calls : list Z)
    (this : RelocationFixup) :
  rtypes_ (set_addresses offset_bits this calls) = rtypes_ this /\
  payload_ (set_addresses offset_bits this calls) = payload_ this /\
  ptr_fmt_ (set_addresses offset_bits this calls) = ptr_fmt_ this.
Proof.
  unfold set_addresses. revert this.
  induction calls as [|a calls IH]; intros this; simpl; [auto|].
  destruct (IH (set_address offset_bits this a)) as (Ht & Hp & Hf).
  rewrite Ht, Hp, Hf. auto.
Qed.

(** X11: the address and the target of a record are independent.  No
    sequence of [address(a)] calls changes the encoding, the payload pointer
    or what [target()] returns, and [address(a)] commutes with [target(v)]:
    in either order the payload, the log and the final record are the same.
    This holds whatever the width of the offset member. *)
Theorem address_and_target_are_independent (offset_bits : Z)
    (this : RelocationFixup) (calls : list Z) (a v : Z) (h : heap) :
  target (set_addresses offset_bits this calls) h = target this h /\
  rtypes_ (set_addresses offset_bits this calls) = rtypes_ this /\
  payload_ (set_addresses offset_bits this calls) = payload_ this /\
  set_target (set_address offset_bits this a) v h =
    (fun r => (set_address offset_bits r.1.1 a, r.1.2, r.2)) <$>
      set_target this v h.
Proof.
  destruct (set_addresses_members offset_bits calls this) as (Ht & Hp & _).
  split; [|split; [exact Ht|split; [exact Hp|]]].
  - apply target_same_object;
      [exact Ht | apply imagebase_set_addresses | rewrite Hp; reflexivity].
  - unfold set_target, arm64_rebase_, arm64_auth_rebase_, p64_rebase_, p32_rebase_,
      rel_target.
    cbn [rtypes_ payload_ imagebase_ set_address].
    destruct (rtypes_ this); try reflexivity;
      destruct (load h (payload_ this)) as [[]|]; try reflexivity;
      cbn [mbind option_bind fmap option_fmap option_map];
      match goal with
      | |- context [store h ?p ?o] => destruct (store h p o); reflexivity
      end.
Qed.

(** ** Invariants over the life of a populated record *)

Lemma consistent_set_address (offset_bits : Z) (this : RelocationFixup) (a : Z)
    (h : heap) :
  consistent this h -> consistent (set_address offset_bits this a) h.
Proof. apply consistent_same_object; reflexivity. Qed.

(** X14: once a record is consistent, every sequence of [target(v)],
    [address(a)] and [pc_relative(b)] calls runs to the end and keeps the
    record consistent; the encoding, the image base, the pointer format and
    the payload pointer never change, no payload is allocated or freed, and
    no heap cell other than the record's own payload is written.  This
    holds whatever the width of the offset member. *)
Theorem calls_keep_the_record (offset_bits : Z) (cs : list call)
    (this : RelocationFixup) (h : heap) :
  consistent this h ->
  exists this' h' log,
    do_calls offset_bits cs this h = Some (this', h', log) /\
    consistent this' h' /\
    rtypes_ this' = rtypes_ this /\
    imagebase_ this' = imagebase_ this /\
    ptr_fmt_ this' = ptr_fmt_ this /\
    payload_ this' = payload_ this /\
    length h' = length h /\
    live h' = live h /\
    (forall l, payload_ this <> Some l -> h' !! l = h !! l).
Proof.
  revert this h. induction cs as [|c cs IH]; intros this h Hc.
  - exists this, h, []. simpl. auto 10.
  - assert (Hstep : exists this1 h1 log1,
              do_call offset_bits c this h = Some (this1, h1, log1) /\
              consistent this1 h1 /\
              rtypes_ this1 = rtypes_ this /\
              imagebase_ this1 = imagebase_ this /\
              ptr_fmt_ this1 = ptr_fmt_ this /\
              payload_ this1 = payload_ this /\
              length h1 = length h /\
              live h1 = live h /\
              (forall l, payload_ this <> Some l -> h1 !! l = h !! l)).
    { destruct c as [v|a|b]; simpl.
      - destruct (set_target_step this v h Hc)
          as (h1 & log1 & Hset & Hc1 & Hlen & Hlive & Hframe).
        exists this, h1, log1. auto 10.
      - exists (set_address offset_bits this a), h, [].
        split; [reflexivity|]. split; [apply consistent_set_address; exact Hc|].
        auto 10.
      - exists this, h, []. auto 10. }
    destruct Hstep as (this1 & h1 & log1 & Hdo & Hc1 & Ht1 & Hb1 & Hf1 & Hp1 &
                       Hlen1 & Hlive1 & Hframe1).
    destruct (IH this1 h1 Hc1) as (this2 & h2 & log2 & Hrest & Hc2 & Ht2 & Hb2 &
                                   Hf2 & Hp2 & Hlen2 & Hlive2 & Hframe2).
    exists this2, h2, (log1 ++ log2).
    split; [simpl; rewrite Hdo; simpl; rewrite Hrest; reflexivity|].
    split; [exact Hc2|].
    repeat (split; [congruence|]).
    intros l Hne. rewrite Hframe2 by congruence. apply Hframe1. exact Hne.
Qed.

Lemma calls_keep_the_record_example :
  let p := details.ptr_64_rebase.Build 0x1000 0 0 3 0 in
  let this := with_payload (constructor 2 0x100000000) PTR64_REBASE 0 in
  let h := [Some (obj_64_rebase p)] in
  let cs := [call_target 0x100002000; call_address 0x100000040;
             call_pc_relative true; call_target 0x3000] in
  exists this' h' log,
    do_calls 32 cs this h = Some (this', h', log) /\
    consistent this' h' /\
    rtypes_ this' = rtypes_ this /\
    imagebase_ this' = imagebase_ this /\
    ptr_fmt_ this' = ptr_fmt_ this /\
    payload_ this' = payload_ this /\
    length h' = length h /\
    live h' = live h /\
    (forall l, payload_ this <> Some l -> h' !! l = h !! l).
Proof.
  cbv zeta.
  apply (calls_keep_the_record 32
           [call_target 0x100002000; call_address 0x100000040;
            call_pc_relative true; call_target 0x3000]
           (with_payload (constructor 2 0x100000000) PTR64_REBASE 0)).
  simpl. eexists. reflexivity.
Defined.

(** ** Populating and destroying *)

Lemma insert_snoc (h : heap) (c c' : option object) :
  <[length h := c']> (h ++ [c]) = h ++ [c'].
Proof.
  rewrite insert_app_r_alt by lia. rewrite Nat.sub_diag. reflexivity.
Qed.

Lemma delete_snoc (h : heap) (o : object) :
  delete (h ++ [Some o]) (Some (length h)) = Some (h ++ [None]).
Proof.
  unfold delete. rewrite lookup_app_r by lia. rewrite Nat.sub_diag. simpl.
  rewrite insert_snoc. reflexivity.
Qed.

Lemma delete_live (h : heap) (l : nat) (o : object) :
  h !! l = Some (Some o) -> delete h (Some l) = Some (<[l := None]> h).
Proof. intros Hl. unfold delete. rewrite Hl. reflexivity. Qed.

Lemma destructor_populated (this : RelocationFixup) (h : heap) :
  rtypes_ this <> UNKNOWN -> destructor this h = delete h (payload_ this).
Proof.
  intros Hk. unfold destructor. destruct (rtypes_ this); [contradiction| | | |];
    reflexivity.
Qed.

(** X7: each [set] overload, on any record and heap, leaves a consistent
    record of the matching encoding whose payload is a copy of the argument
    in a fresh cell; pointer format, image base and offset are kept, every
    cell of the heap from before is untouched, and [target()] then returns
    image_base plus the target decoded from the argument. *)
Theorem set_populates (this : RelocationFixup) (h : heap) :
  (forall p,
     let r := set_arm64e_rebase this p h in
     r.2 = h ++ [Some (obj_arm64e_rebase p)] /\
     r.1 = with_payload this ARM64E_REBASE (length h) /\
     arm64_rebase_ r.2 r.1 = Some p /\ consistent r.1 r.2 /\
     address r.1 = address this /\
     target r.1 r.2 = Some (add64 (imagebase_ this) (unpack_target_arm64e p), [])) /\
  (forall p,
     let r := set_arm64e_auth_rebase this p h in
     r.2 = h ++ [Some (obj_arm64e_auth_rebase p)] /\
     r.1 = with_payload this ARM64E_AUTH_REBASE (length h) /\
     arm64_auth_rebase_ r.2 r.1 = Some p /\ consistent r.1 r.2 /\
     address r.1 = address this /\
     target r.1 r.2 =
       Some (add64 (imagebase_ this) (details.arm64e_auth_rebase.target p), [])) /\
  (forall p,
     let r := set_64_rebase this p h in
     r.2 = h ++ [Some (obj_64_rebase p)] /\
     r.1 = with_payload this PTR64_REBASE (length h) /\
     p64_rebase_ r.2 r.1 = Some p /\ consistent r.1 r.2 /\
     address r.1 = address this /\
     target r.1 r.2 = Some (add64 (imagebase_ this) (unpack_target_64 p), [])) /\
  (forall p,
     let r := set_32_rebase this p h in
     r.2 = h ++ [Some (obj_32_rebase p)] /\
     r.1 = with_payload this PTR32_REBASE (length h) /\
     p32_rebase_ r.2 r.1 = Some p /\ consistent r.1 r.2 /\
     address r.1 = address this /\
     target r.1 r.2 =
       Some (add64 (imagebase_ this) (details.ptr_32_rebase.target p), [])) /\
  (forall l cell o, h !! l = Some cell -> (h ++ [Some o]) !! l = Some cell).
Proof.
  split; [|split; [|split; [|split]]];
    try (intros p r; subst r;
         unfold set_arm64e_rebase, set_arm64e_auth_rebase, set_64_rebase,
           set_32_rebase, new;
         cbn [fst snd];
         split; [reflexivity|]; split; [reflexivity|];
         match goal with
         | |- ?typed = Some p /\ _ =>
             assert (Hp : typed = Some p)
               by (unfold arm64_rebase_, arm64_auth_rebase_, p64_rebase_, p32_rebase_;
                   cbn [payload_ with_payload]; rewrite load_snoc; reflexivity)
         end;
         split; [exact Hp|];
         split; [unfold consistent; cbn [rtypes_ with_payload]; rewrite Hp; eauto|];
         split; [reflexivity|];
         unfold target; cbn [rtypes_ with_payload]; rewrite Hp; reflexivity).
  intros l cell o Hl. rewrite lookup_app_l; [exact Hl|].
  apply lookup_lt_Some in Hl. exact Hl.
Qed.

(** X1: a payload allocated by [set] is released by the destructor: after
    any [set] overload the new cell is the one live address added, and
    destroying the record frees exactly that cell, so the live addresses are
    again those from before the [set]. *)
Theorem set_then_destructor_releases (this : RelocationFixup) (h : heap) :
  (forall p,
     let r := set_arm64e_rebase this p h in
     live r.2 = live h ++ [length h] /\ destructor r.1 r.2 = Some (h ++ [None])) /\
  (forall p,
     let r := set_arm64e_auth_rebase this p h in
     live r.2 = live h ++ [length h] /\ destructor r.1 r.2 = Some (h ++ [None])) /\
  (forall p,
     let r := set_64_rebase this p h in
     live r.2 = live h ++ [length h] /\ destructor r.1 r.2 = Some (h ++ [None])) /\
  (forall p,
     let r := set_32_rebase this p h in
     live r.2 = live h ++ [length h] /\ destructor r.1 r.2 = Some (h ++ [None])) /\
  live (h ++ [None]) = live h.
Proof.
  split; [|split; [|split; [|split]]];
    try (intros p r; subst r;
         unfold set_arm64e_rebase, set_arm64e_auth_rebase, set_64_rebase,
           set_32_rebase, new;
         cbn [fst snd];
         split; [apply live_snoc_Some|];
         rewrite destructor_populated by discriminate;
         apply delete_snoc).
  apply live_snoc_None.
Qed.

(** X2: destroying a populated, consistent record frees its payload cell and
    nothing else: every other cell is untouched, and a record with another
    payload pointer keeps its consistency and its target.  The destroyed
    record itself is left dangling: reading its target, or destroying it a
    second time, is undefined. *)
Theorem destructor_frees_only_own_payload (this : RelocationFixup) (h : heap) :
  rtypes_ this <> UNKNOWN ->
  consistent this h ->
  exists l h',
    payload_ this = Some l /\
    destructor this h = Some h' /\
    h' !! l = Some None /\
    (l ∉ live h') /\
    (forall l', l' <> l -> h' !! l' = h !! l') /\
    (forall other, payload_ other <> Some l ->
       target other h' = target other h /\
       (consistent other h -> consistent other h')) /\
    target this h' = None /\
    destructor this h' = None.
Proof.
  intros Hk Hc.
  destruct (consistent_populated this h Hk Hc) as (l & o & Hl & Hcell).
  pose proof (lookup_lt_Some _ _ _ Hcell) as Hlt.
  assert (Hdead : (<[l := None]> h : heap) !! l = Some None)
    by (apply list_lookup_insert_eq; exact Hlt).
  exists l, (<[l := None]> h).
  split; [exact Hl|].
  split; [rewrite destructor_populated, Hl by exact Hk;
          apply (delete_live h l o Hcell)|].
  split; [exact Hdead|].
  split; [rewrite elem_of_live, Hdead; intros [o' Ho']; discriminate|].
  split; [intros l' Hne; apply list_lookup_insert_ne; congruence|].
  split.
  - intros other Hne.
    pose proof (load_insert_ne h l None (payload_ other) Hne) as Hload.
    split; [apply target_same_object | apply consistent_same_object]; auto.
  - assert (Hload : load (<[l := None]> h) (payload_ this) = None).
    { rewrite Hl. unfold load. simpl. rewrite Hdead. reflexivity. }
    split.
    + unfold target, arm64_rebase_, arm64_auth_rebase_, p64_rebase_, p32_rebase_.
      rewrite Hload. destruct (rtypes_ this); [contradiction| | | |]; reflexivity.
    + rewrite destructor_populated, Hl by exact Hk.
      unfold delete. rewrite Hdead. reflexivity.
Qed.

Lemma destructor_frees_only_own_payload_example :
  let p := details.ptr_64_rebase.Build 0x1000 0 0 3 0 in
  let q := details.ptr_32_rebase.Build 0x4000 1 0 in
  let this := with_payload (constructor 2 0x100000000) PTR64_REBASE 0 in
  let h := [Some (obj_64_rebase p); Some (obj_32_rebase q)] in
  exists l h',
    payload_ this = Some l /\
    destructor this h = Some h' /\
    h' !! l = Some None /\
    (l ∉ live h') /\
    (forall l', l' <> l -> h' !! l' = h !! l') /\
    (forall other, payload_ other <> Some l ->
       target other h' = target other h /\
       (consistent other h -> consistent other h')) /\
    target this h' = None /\
    destructor this h' = None.
Proof.
  cbv zeta.
  apply (destructor_frees_only_own_payload
           (with_payload (constructor 2 0x100000000) PTR64_REBASE 0)).
  - discriminate.
  - simpl. eexists. reflexivity.
Defined.

(** ** Copies *)

(** What the copying switch does for a consistent source: nothing for
    UNKNOWN, otherwise a fresh cell holding the object the source points to. *)
Lemma copy_payload_cases (this other : RelocationFixup) (h : heap) :
  rtypes_ this = rtypes_ other ->
  consistent other h ->
  (rtypes_ other = UNKNOWN /\ copy_payload this other h = Some (this, h)) \/
  (exists o,
     rtypes_ other <> UNKNOWN /\
     load h (payload_ other) = Some o /\
     copy_payload this other h =
       Some (with_payload this (rtypes_ other) (length h), h ++ [Some o])).
Proof.
  intros Ht Hc. unfold copy_payload, consistent in *. rewrite Ht.
  destruct (rtypes_ other); [left; auto| | | |]; right;
    destruct Hc as [p Hp]; rewrite Hp; simpl.
  - apply typed_load_arm64e in Hp as (l & Hl & Hcell).
    eexists. split; [discriminate|]. split; [|reflexivity].
    rewrite Hl. apply load_Some. exact Hcell.
  - apply typed_load_arm64e_auth in Hp as (l & Hl & Hcell).
    eexists. split; [discriminate|]. split; [|reflexivity].
    rewrite Hl. apply load_Some. exact Hcell.
  - apply typed_load_64 in Hp as (l & Hl & Hcell).
    eexists. split; [discriminate|]. split; [|reflexivity].
    rewrite Hl. apply load_Some. exact Hcell.
  - apply typed_load_32 in Hp as (l & Hl & Hcell).
    eexists. split; [discriminate|]. split; [|reflexivity].
    rewrite Hl. apply load_Some. exact Hcell.
Qed.

Lemma target_unknown (this : RelocationFixup) (h1 h2 : heap) :
  rtypes_ this = UNKNOWN -> target this h1 = target this h2.
Proof. intros Ht. unfold target. rewrite Ht. reflexivity. Qed.

Lemma consistent_unknown (this : RelocationFixup) (h : heap) :
  rtypes_ this = UNKNOWN -> consistent this h.
Proof. intros Ht. unfold consistent. rewrite Ht. exact I. Qed.

Lemma load_lt (h : heap) (p : pointer) (o : object) :
  load h p = Some o -> exists l, p = Some l /\ (l < length h)%nat.
Proof.
  destruct p as [l|]; [|discriminate]. rewrite load_Some. intros Hl.
  exists l. split; [reflexivity|]. apply lookup_lt_Some in Hl. exact Hl.
Qed.

(** X3: cloning a consistent record always succeeds and gives a deep copy.
    The clone has the encoding, address and target of the original and is
    consistent; the cells of the heap from before are untouched.  Afterwards
    the two records are independent: [target(v)] on the clone, for any v, and
    the destruction of the clone leave the original consistent with the
    target it had, and destroying the clone brings the live addresses back
    to those from before the clone. *)
Theorem clone_is_independent (this : RelocationFixup) (h : heap) :
  consistent this h ->
  exists c h',
    clone this h = Some (c, h') /\
    (forall l cell, h !! l = Some cell -> h' !! l = Some cell) /\
    consistent c h' /\
    rtypes_ c = rtypes_ this /\
    address c = address this /\
    target c h' = target this h /\
    (forall v, exists h2 log,
       set_target c v h' = Some (c, h2, log) /\
       target this h2 = target this h /\
       consistent this h2) /\
    (exists h3,
       destructor c h' = Some h3 /\
       target this h3 = target this h /\
       consistent this h3 /\
       live h3 = live h).
Proof.
  intros Hc. unfold clone, copy_constructor.
  set (c0 := {| ptr_fmt_ := ptr_fmt_ this; imagebase_ := imagebase_ this;
                offset_ := offset_ this; rtypes_ := rtypes_ this;
                payload_ := None |}).
  destruct (copy_payload_cases c0 this h eq_refl Hc)
    as [[Hu Hcopy]|(o & Hk & Hload & Hcopy)].
  - (* UNKNOWN: nothing is allocated *)
    exists c0, h. split; [exact Hcopy|].
    split; [auto|].
    split; [apply consistent_unknown; exact Hu|].
    split; [reflexivity|]. split; [reflexivity|].
    split; [unfold target; simpl; rewrite Hu; reflexivity|].
    split.
    + intros v. exists h. eexists.
      split; [unfold set_target; simpl; rewrite Hu; reflexivity|]. auto.
    + exists h. split; [unfold destructor; simpl; rewrite Hu; reflexivity|]. auto.
  - (* populated: one fresh cell with a copy of the object *)
    destruct (load_lt h _ _ Hload) as (l & Hl & Hlt).
    set (c := with_payload c0 (rtypes_ this) (length h)) in *.
    set (h' := h ++ [Some o]) in *.
    assert (Hold : forall l0 cell, h !! l0 = Some cell -> h' !! l0 = Some cell).
    { intros l0 cell H0. unfold h'. rewrite lookup_app_l; [exact H0|].
      apply lookup_lt_Some in H0. exact H0. }
    assert (Hloadc : load h' (payload_ c) = load h (payload_ this)).
    { rewrite Hload. apply load_snoc. }
    assert (Hloadt : load h' (payload_ this) = load h (payload_ this)).
    { rewrite Hload. apply load_app. exact Hload. }
    assert (Hcc : consistent c h').
    { apply (consistent_same_object this c h h'); [reflexivity|auto|exact Hc]. }
    assert (Hne : payload_ this <> payload_ c).
    { rewrite Hl. simpl. intros [= ->]. lia. }
    exists c, h'. split; [exact Hcopy|].
    split; [exact Hold|]. split; [exact Hcc|].
    split; [reflexivity|]. split; [reflexivity|].
    split; [apply target_same_object; auto|].
    split.
    + intros v.
      destruct (set_target_step c v h' Hcc) as (h2 & log & Hset & _ & _ & _ & Hframe).
      exists h2, log. split; [exact Hset|].
      pose proof (load_frame h' h2 (payload_ c) (payload_ this) Hframe Hne) as Hload2.
      split.
      * apply target_same_object; [reflexivity|reflexivity|congruence].
      * apply (consistent_same_object this this h h2);
          [reflexivity|congruence|exact Hc].
    + exists (h ++ [None]).
      split; [rewrite destructor_populated by exact Hk; apply delete_snoc|].
      assert (Hload3 : load (h ++ [None]) (payload_ this) = load h (payload_ this)).
      { rewrite Hload. apply load_app. exact Hload. }
      split; [apply target_same_object; auto|].
      split; [apply (consistent_same_object this this h); auto|].
      apply live_snoc_None.
Qed.

Lemma clone_is_independent_example :
  let p := details.arm64e_rebase.Build 0x1000 0 3 0 0 in
  let this := with_payload (constructor 1 0x100000000) ARM64E_REBASE 0 in
  let h := [Some (obj_arm64e_rebase p)] in
  exists c h',
    clone this h = Some (c, h') /\
    (forall l cell, h !! l = Some cell -> h' !! l = Some cell) /\
    consistent c h' /\
    rtypes_ c = rtypes_ this /\
    address c = address this /\
    target c h' = target this h /\
    (forall v, exists h2 log,
       set_target c v h' = Some (c, h2, log) /\
       target this h2 = target this h /\
       consistent this h2) /\
    (exists h3,
       destructor c h' = Some h3 /\
       target this h3 = target this h /\
       consistent this h3 /\
       live h3 = live h).
Proof.
  cbv zeta.
  apply (clone_is_independent
           (with_payload (constructor 1 0x100000000) ARM64E_REBASE 0)).
  simpl. eexists. reflexivity.
Defined.

(** X4: copy assignment from a consistent record always succeeds.  Onto
    itself it changes nothing and allocates nothing; onto another object it
    replaces pointer format, image base, offset and encoding by those of the
    source, leaves the assigned record consistent with the address and the
    target of the source, and leaves the source and every cell from before
    untouched.  A populated source is copied into a fresh cell; for an
    UNKNOWN source the pointer the record held is left as it was. *)
Theorem copy_assignment_replaces (this other : ref) (h : heap) :
  consistent (deref other) h ->
  (addr this = addr other -> operator_assign this other h = Some (deref this, h)) /\
  (addr this <> addr other ->
   exists this' h',
     operator_assign this other h = Some (this', h') /\
     ptr_fmt_ this' = ptr_fmt_ (deref other) /\
     imagebase_ this' = imagebase_ (deref other) /\
     offset_ this' = offset_ (deref other) /\
     rtypes_ this' = rtypes_ (deref other) /\
     consistent this' h' /\
     address this' = address (deref other) /\
     target this' h' = target (deref other) h /\
     target (deref other) h' = target (deref other) h /\
     (forall l cell, h !! l = Some cell -> h' !! l = Some cell) /\
     (rtypes_ (deref other) <> UNKNOWN ->
      payload_ this' = Some (length h) /\ length h' = S (length h)) /\
     (rtypes_ (deref other) = UNKNOWN ->
      payload_ this' = payload_ (deref this) /\ h' = h)).
Proof.
  intros Hc. unfold operator_assign. split.
  - intros Heq. rewrite (proj2 (Nat.eqb_eq _ _) Heq). reflexivity.
  - intros Hne. rewrite (proj2 (Nat.eqb_neq _ _) Hne).
    set (t0 := {| ptr_fmt_ := ptr_fmt_ (deref other);
                  imagebase_ := imagebase_ (deref other);
                  offset_ := offset_ (deref other);
                  rtypes_ := rtypes_ (deref other);
                  payload_ := payload_ (deref this) |}).
    destruct (copy_payload_cases t0 (deref other) h eq_refl Hc)
      as [[Hu Hcopy]|(o & Hk & Hload & Hcopy)].
    + exists t0, h. split; [exact Hcopy|].
      do 4 (split; [reflexivity|]).
      split; [apply consistent_unknown; exact Hu|].
      split; [reflexivity|].
      split; [unfold target; simpl; rewrite Hu; reflexivity|].
      split; [reflexivity|]. split; [auto|].
      split; [intros Hk; contradiction|]. auto.
    + set (t := with_payload t0 (rtypes_ (deref other)) (length h)) in *.
      set (h' := h ++ [Some o]) in *.
      assert (Hloadt : load h' (payload_ t) = load h (payload_ (deref other))).
      { rewrite Hload. apply load_snoc. }
      assert (Hloado : load h' (payload_ (deref other)) =
                       load h (payload_ (deref other))).
      { rewrite Hload. apply load_app. exact Hload. }
      exists t, h'. split; [exact Hcopy|].
      do 4 (split; [reflexivity|]).
      split; [apply (consistent_same_object (deref other) t h h');
              [reflexivity|auto|exact Hc]|].
      split; [reflexivity|].
      split; [apply target_same_object; auto|].
      split; [apply target_same_object; auto|].
      split.
      { intros l cell Hl. unfold h'. rewrite lookup_app_l; [exact Hl|].
        apply lookup_lt_Some in Hl. exact Hl. }
      split.
      { intros _. split; [reflexivity|]. unfold h'.
        rewrite length_app. simpl. lia. }
      intros Hu. contradiction.
Qed.

Lemma copy_assignment_replaces_example :
  let p := details.ptr_64_rebase.Build 0x1000 0 0 3 0 in
  let q := details.arm64e_auth_rebase.Build 0x4000 0xBEEF 1 2 5 0 1 in
  let this := Ref 0 (with_payload (constructor 2 0x100000000) PTR64_REBASE 0) in
  let other := Ref 1 (with_payload (constructor 1 0x200000000) ARM64E_AUTH_REBASE 1) in
  let h := [Some (obj_64_rebase p); Some (obj_arm64e_auth_rebase q)] in
  exists this' h',
    operator_assign this other h = Some (this', h') /\
    ptr_fmt_ this' = ptr_fmt_ (deref other) /\
    imagebase_ this' = imagebase_ (deref other) /\
    offset_ this' = offset_ (deref other) /\
    rtypes_ this' = rtypes_ (deref other) /\
    consistent this' h' /\
    address this' = address (deref other) /\
    target this' h' = target (deref other) h /\
    target (deref other) h' = target (deref other) h /\
    (forall l cell, h !! l = Some cell -> h' !! l = Some cell) /\
    (rtypes_ (deref other) <> UNKNOWN ->
     payload_ this' = Some (length h) /\ length h' = S (length h)) /\
    (rtypes_ (deref other) = UNKNOWN ->
     payload_ this' = payload_ (deref this) /\ h' = h).
Proof.
  cbv zeta.
  apply (copy_assignment_replaces
           (Ref 0 (with_payload (constructor 2 0x100000000) PTR64_REBASE 0))
           (Ref 1 (with_payload (constructor 1 0x200000000) ARM64E_AUTH_REBASE 1))).
  - simpl. eexists. reflexivity.
  - simpl. lia.
Defined.

(** ** Moves *)

(** A populated, consistent record that has been destroyed dangles. *)
Lemma destroyed_dangles (this : RelocationFixup) (h : heap) :
  rtypes_ this <> UNKNOWN ->
  consistent this h ->
  exists l o,
    payload_ this = Some l /\
    h !! l = Some (Some o) /\
    destructor this h = Some (<[l := None]> h) /\
    target this (<[l := None]> h) = None /\
    destructor this (<[l := None]> h) = None.
Proof.
  intros Hk Hc.
  destruct (consistent_populated this h Hk Hc) as (l & o & Hl & Hcell).
  pose proof (lookup_lt_Some _ _ _ Hcell) as Hlt.
  assert (Hdead : (<[l := None]> h : heap) !! l = Some None)
    by (apply list_lookup_insert_eq; exact Hlt).
  exists l, o. split; [exact Hl|]. split; [exact Hcell|].
  split; [rewrite destructor_populated, Hl by exact Hk;
          apply (delete_live h l o Hcell)|].
  split.
  - unfold target, arm64_rebase_, arm64_auth_rebase_, p64_rebase_, p32_rebase_.
    rewrite Hl. unfold load. simpl. rewrite Hdead.
    destruct (rtypes_ this); [contradiction| | | |]; reflexivity.
  - rewrite destructor_populated, Hl by exact Hk.
    unfold delete. rewrite Hdead. reflexivity.
Qed.

(** X5: the defaulted move constructor does not touch the heap and does not
    empty its source: every member of the new record, pointer format, image
    base, offset, encoding and payload pointer, is that of the source, so it
    has the address and the target of the source.  For a populated,
    consistent source the two records therefore own one payload: once either
    of them is destroyed the other dangles, and destroying it too deletes
    the same cell a second time, which is undefined. *)
Theorem move_constructor_shares_payload (other : RelocationFixup) (h : heap) :
  let this := move_constructor other in
  ptr_fmt_ this = ptr_fmt_ other /\
  imagebase_ this = imagebase_ other /\
  offset_ this = offset_ other /\
  rtypes_ this = rtypes_ other /\
  payload_ this = payload_ other /\
  address this = address other /\
  target this h = target other h /\
  (consistent other h -> consistent this h) /\
  (rtypes_ other <> UNKNOWN ->
   consistent other h ->
   (exists h1,
      destructor other h = Some h1 /\
      target this h1 = None /\
      destructor this h1 = None) /\
   (exists h1,
      destructor this h = Some h1 /\
      target other h1 = None /\
      destructor other h1 = None)).
Proof.
  intros this.
  assert (Hthis : this = other) by (destruct other; reflexivity).
  do 5 (split; [reflexivity|]).
  rewrite Hthis. do 2 (split; [reflexivity|]). split; [trivial|].
  intros Hk Hc.
  destruct (destroyed_dangles other h Hk Hc)
    as (l & o & _ & _ & Hdestroy & Hread & Hagain).
  split; exists (<[l := None]> h); auto.
Qed.

Lemma move_constructor_shares_payload_example :
  let p := details.ptr_64_rebase.Build 0x1000 0 0 3 0 in
  let other := with_payload (constructor 2 0x100000000) PTR64_REBASE 0 in
  let h := [Some (obj_64_rebase p)] in
  let this := move_constructor other in
  (exists h1,
     destructor other h = Some h1 /\
     target this h1 = None /\
     destructor this h1 = None) /\
  (exists h1,
     destructor this h = Some h1 /\
     target other h1 = None /\
     destructor other h1 = None).
Proof.
  cbv zeta.
  pose proof (move_constructor_shares_payload
                (with_payload (constructor 2 0x100000000) PTR64_REBASE 0)
                [Some (obj_64_rebase (details.ptr_64_rebase.Build 0x1000 0 0 3 0))])
    as H.
  cbv zeta in H. destruct H as (_ & _ & _ & _ & _ & _ & _ & _ & Hshare).
  apply Hshare.
  - discriminate.
  - simpl. eexists. reflexivity.
Defined.

(** X6: the defaulted move assignment does not touch the heap and
    overwrites every member of the target, pointer format, image base,
    offset, encoding and payload pointer, with that of the source, so the
    target has the address and the target value of the source afterwards.
    When both records were populated with different payloads, the payload
    the target held stays alive and is referenced by neither record, and the
    two records own the payload of the source together: destroying both
    deletes that cell twice. *)
Theorem move_assign_shares_payload (this other : RelocationFixup) (h : heap) :
  let this' := move_assign this other in
  ptr_fmt_ this' = ptr_fmt_ other /\
  imagebase_ this' = imagebase_ other /\
  offset_ this' = offset_ other /\
  rtypes_ this' = rtypes_ other /\
  payload_ this' = payload_ other /\
  address this' = address other /\
  target this' h = target other h /\
  (consistent other h -> consistent this' h) /\
  (forall l o,
     payload_ this = Some l ->
     h !! l = Some (Some o) ->
     rtypes_ other <> UNKNOWN ->
     consistent other h ->
     payload_ other <> Some l ->
     payload_ this' <> Some l /\
     exists h1,
       destructor this' h = Some h1 /\
       destructor other h1 = None /\
       h1 !! l = Some (Some o) /\
       l ∈ live h1).
Proof.
  intros this'.
  assert (Hthis : this' = other) by (destruct other; reflexivity).
  do 5 (split; [reflexivity|]).
  rewrite Hthis. do 2 (split; [reflexivity|]). split; [trivial|].
  intros l o Hl Hcell Hk Hc Hne. split; [exact Hne|].
  destruct (destroyed_dangles other h Hk Hc)
    as (l' & o' & Hl' & _ & Hdestroy & _ & Hagain).
  assert (Hkept : (<[l' := None]> h : heap) !! l = Some (Some o)).
  { rewrite list_lookup_insert_ne by congruence. exact Hcell. }
  exists (<[l' := None]> h).
  split; [exact Hdestroy|]. split; [exact Hagain|]. split; [exact Hkept|].
  apply elem_of_live. eauto.
Qed.

Lemma move_assign_shares_payload_example :
  let p := details.ptr_64_rebase.Build 0x1000 0 0 3 0 in
  let q := details.arm64e_auth_rebase.Build 0x4000 0xBEEF 1 2 5 0 1 in
  let this := with_payload (constructor 2 0x100000000) PTR64_REBASE 0 in
  let other := with_payload (constructor 1 0x200000000) ARM64E_AUTH_REBASE 1 in
  let h := [Some (obj_64_rebase p); Some (obj_arm64e_auth_rebase q)] in
  let this' := move_assign this other in
  payload_ this' <> Some 0%nat /\
  exists h1,
    destructor this' h = Some h1 /\
    destructor other h1 = None /\
    h1 !! 0%nat = Some (Some (obj_64_rebase p)) /\
    0%nat ∈ live h1.
Proof.
  cbv zeta.
  pose proof (move_assign_shares_payload
                (with_payload (constructor 2 0x100000000) PTR64_REBASE 0)
                (with_payload (constructor 1 0x200000000) ARM64E_AUTH_REBASE 1)
                [Some (obj_64_rebase (details.ptr_64_rebase.Build 0x1000 0 0 3 0));
                 Some (obj_arm64e_auth_rebase
                         (details.arm64e_auth_rebase.Build 0x4000 0xBEEF 1 2 5 0 1))])
    as H.
  cbv zeta in H. destruct H as (_ & _ & _ & _ & _ & _ & _ & _ & Hshare).
  apply (Hshare 0%nat (obj_64_rebase (details.ptr_64_rebase.Build 0x1000 0 0 3 0))).
  - reflexivity.
  - reflexivity.
  - discriminate.
  - simpl. eexists. reflexivity.
  - discriminate.
Defined.

(** ** More on the setter *)

(** One case of the setter called twice. *)
Ltac twice_case inv step Hc Ht :=
  let p := fresh "p" in
  let Hp := fresh "Hp" in
  let l := fresh "l" in
  let Hl := fresh "Hl" in
  let Hcell := fresh "Hcell" in
  let Hlt := fresh "Hlt" in
  destruct Hc as [p Hp];
  apply inv in Hp as (l & Hl & Hcell);
  pose proof (lookup_lt_Some _ _ _ Hcell) as Hlt;
  eexists; exists []; eexists; exists [];
  split; [apply (step _ _ l p _ Ht Hl Hcell)|];
  split;
  [ erewrite step;
      [ | exact Ht | exact Hl | apply list_lookup_insert_eq; exact Hlt ];
    rewrite list_insert_insert_eq; reflexivity
  | split; [apply (step _ _ l p _ Ht Hl Hcell)|];
    split; [intros _; split; reflexivity|];
    intros [Hother|Hother]; discriminate ].

(** X9: on a consistent record the last [target(v)] wins for the record and
    the heap: after [target(v1)], a call [target(v2)] returns and leaves
    exactly the record and the heap that [target(v2)] alone would have left,
    and logs what [target(v2)] alone logs.  The log of the first call comes
    on top: nothing on the three encodings that store, but one entry per
    call on PTR32_REBASE and UNKNOWN records, where the heap is not changed
    at all. *)
Theorem set_target_last_wins (this : RelocationFixup) (v1 v2 : Z) (h : heap) :
  consistent this h ->
  exists h1 log1 h2 log2,
    set_target this v1 h = Some (this, h1, log1) /\
    set_target this v2 h1 = Some (this, h2, log2) /\
    set_target this v2 h = Some (this, h2, log2) /\
    (rtypes_ this = ARM64E_REBASE \/ rtypes_ this = ARM64E_AUTH_REBASE \/
     rtypes_ this = PTR64_REBASE -> log1 = [] /\ log2 = []) /\
    (rtypes_ this = PTR32_REBASE \/ rtypes_ this = UNKNOWN ->
     h1 = h /\ h2 = h /\ length log1 = 1%nat /\ length log2 = 1%nat).
Proof.
  intros Hc. unfold consistent in Hc.
  destruct (rtypes_ this) eqn:Ht.
  - exists h. eexists. exists h. eexists. unfold set_target. rewrite Ht.
    do 3 (split; [reflexivity|]).
    split; [intros [H|[H|H]]; discriminate | auto].
  - twice_case typed_load_arm64e set_target_arm64e Hc Ht.
  - twice_case typed_load_arm64e_auth set_target_arm64e_auth Hc Ht.
  - twice_case typed_load_64 set_target_64 Hc Ht.
  - exists h. eexists. exists h. eexists. unfold set_target. rewrite Ht.
    do 3 (split; [reflexivity|]).
    split; [intros [H|[H|H]]; discriminate | auto].
Qed.

Lemma set_target_last_wins_example :
  let p := details.arm64e_auth_rebase.Build 0x4000 0xBEEF 1 2 5 0 1 in
  let this := with_payload (constructor 1 0x100000000) ARM64E_AUTH_REBASE 0 in
  let h := [Some (obj_arm64e_auth_rebase p)] in
  exists h1 log1 h2 log2,
    set_target this 0x100008000 h = Some (this, h1, log1) /\
    set_target this 0x10000C000 h1 = Some (this, h2, log2) /\
    set_target this 0x10000C000 h = Some (this, h2, log2) /\
    (rtypes_ this = ARM64E_REBASE \/ rtypes_ this = ARM64E_AUTH_REBASE \/
     rtypes_ this = PTR64_REBASE -> log1 = [] /\ log2 = []) /\
    (rtypes_ this = PTR32_REBASE \/ rtypes_ this = UNKNOWN ->
     h1 = h /\ h2 = h /\ length log1 = 1%nat /\ length log2 = 1%nat).
Proof.
  cbv zeta.
  apply (set_target_last_wins
           (with_payload (constructor 1 0x100000000) ARM64E_AUTH_REBASE 0)).
  simpl. eexists. reflexivity.
Defined.

(** On a PTR32_REBASE record every call of the setter logs its warning. *)
Example set_target_twice_ptr32_logs_twice :
  let p := details.ptr_32_rebase.Build 0x4000 1 0 in
  let this := with_payload (constructor 1 0x10000) PTR32_REBASE 0 in
  let h := [Some (obj_32_rebase p)] in
  exists log,
    do_calls 32 [call_target 0x20000; call_target 0x30000] this h =
      Some (this, h, log) /\
    length log = 2%nat.
Proof. cbv zeta. eexists. split; reflexivity. Qed.

(** What [target()] returns after a relative value that the encoding can
    hold has been stored. *)
Lemma set_target_then_target_rel (this : RelocationFixup) (h : heap) (v rel : Z) :
  rtypes_ this = ARM64E_REBASE \/ rtypes_ this = ARM64E_AUTH_REBASE \/
  rtypes_ this = PTR64_REBASE ->
  consistent this h ->
  rel_target this v = rel ->
  representable (rtypes_ this) rel ->
  in_u64 (imagebase_ this + rel) ->
  exists h', set_target this v h = Some (this, h', []) /\
             target this h' = Some (imagebase_ this + rel, []).
Proof.
  intros Henc Hc Hrel Hr Hsum. unfold consistent in Hc.
  apply u64_small in Hsum. fold (add64 (imagebase_ this) rel) in Hsum.
  destruct Henc as [Ht|[Ht|Ht]]; rewrite Ht in Hc, Hr; destruct Hc as [p Hp].
  - apply typed_load_arm64e in Hp as (l & Hl & Hcell).
    eexists. split; [apply (set_target_arm64e this h l p v Ht Hl Hcell)|].
    unfold target, arm64_rebase_. rewrite Ht, Hl.
    rewrite (load_store h l _ _ Hcell). simpl.
    rewrite Hrel, unpack_pack_arm64e, Hsum by exact Hr. reflexivity.
  - apply typed_load_arm64e_auth in Hp as (l & Hl & Hcell).
    eexists. split; [apply (set_target_arm64e_auth this h l p v Ht Hl Hcell)|].
    unfold target, arm64_auth_rebase_. rewrite Ht, Hl.
    rewrite (load_store h l _ _ Hcell). simpl.
    rewrite Hrel, bitfield_small, Hsum by (lia || exact Hr). reflexivity.
  - apply typed_load_64 in Hp as (l & Hl & Hcell).
    eexists. split; [apply (set_target_64 this h l p v Ht Hl Hcell)|].
    unfold target, p64_rebase_. rewrite Ht, Hl.
    rewrite (load_store h l _ _ Hcell). simpl.
    rewrite Hrel, unpack_pack_64, Hsum by exact Hr. reflexivity.
Qed.

(** X10: the setter takes a value below the image base for an already
    relative one: for 0 <= v < image_base with image_base + v below 2^64, so
    that the sum is itself a 64-bit argument, [target(v)] does exactly what
    [target(image_base + v)] does.  So on ARM64E_REBASE, ARM64E_AUTH_REBASE
    and PTR64_REBASE records, when the encoding can hold v, [target(v)]
    followed by [target()] returns image_base + v, not v. *)
Theorem set_target_below_base_is_relative (this : RelocationFixup) (h : heap)
    (v : Z) :
  0 <= v < imagebase_ this ->
  imagebase_ this + v < 2 ^ 64 ->
  in_u64 (imagebase_ this + v) /\
  set_target this v h = set_target this (imagebase_ this + v) h /\
  (rtypes_ this = ARM64E_REBASE \/ rtypes_ this = ARM64E_AUTH_REBASE \/
   rtypes_ this = PTR64_REBASE ->
   consistent this h ->
   representable (rtypes_ this) v ->
   exists h', set_target this v h = Some (this, h', []) /\
              target this h' = Some (imagebase_ this + v, []) /\
              imagebase_ this + v <> v).
Proof.
  intros Hv Hsum64.
  assert (Hsum : in_u64 (imagebase_ this + v)) by (unfold in_u64; lia).
  assert (Hrel1 : rel_target this v = v) by (apply rel_target_below; lia).
  assert (Hrel2 : rel_target this (imagebase_ this + v) = v)
    by (rewrite rel_target_above; lia).
  split; [exact Hsum|]. split.
  - unfold set_target. rewrite Hrel1, Hrel2. reflexivity.
  - intros Henc Hc Hr.
    destruct (set_target_then_target_rel this h v v Henc Hc Hrel1 Hr Hsum)
      as (h' & Hset & Hget).
    exists h'. split; [exact Hset|]. split; [exact Hget|]. lia.
Qed.

Lemma set_target_below_base_is_relative_example :
  let p := details.arm64e_auth_rebase.Build 0x4000 0xBEEF 1 2 5 0 1 in
  let this := with_payload (constructor 1 0x100000000) ARM64E_AUTH_REBASE 0 in
  let h := [Some (obj_arm64e_auth_rebase p)] in
  set_target this 0x8000 h = set_target this 0x100008000 h /\
  exists h', set_target this 0x8000 h = Some (this, h', []) /\
             target this h' = Some (0x100008000, []) /\
             0x100008000 <> 0x8000.
Proof.
  cbv zeta.
  destruct (set_target_below_base_is_relative
              (with_payload (constructor 1 0x100000000) ARM64E_AUTH_REBASE 0)
              [Some (obj_arm64e_auth_rebase
                       (details.arm64e_auth_rebase.Build 0x4000 0xBEEF 1 2 5 0 1))]
              0x8000) as (_ & Hsame & Hget).
  - simpl. lia.
  - simpl. lia.
  - split; [exact Hsame|]. apply Hget.
    + right. left. reflexivity.
    + simpl. eexists. reflexivity.
    + simpl. unfold fits. lia.
Defined.

(** Without the bound the sum wraps around as a 64-bit argument and the two
    calls differ: with image base 0xFFFFFFFFFFFFFFF0 and v = 0x20 the
    argument image_base + v is 0x10, and the setter stores 0x10, not 0x20. *)
Example set_target_below_base_wraps :
  let p := details.arm64e_auth_rebase.Build 0 0 0 0 0 0 1 in
  let this := with_payload (constructor 1 0xFFFFFFFFFFFFFFF0) ARM64E_AUTH_REBASE 0 in
  let h := [Some (obj_arm64e_auth_rebase p)] in
  add64 (imagebase_ this) 0x20 = 0x10 /\
  set_target this 0x20 h =
    Some (this, [Some (obj_arm64e_auth_rebase
                         (details.arm64e_auth_rebase.Build 0x20 0 0 0 0 0 1))], []) /\
  set_target this 0x10 h =
    Some (this, [Some (obj_arm64e_auth_rebase
                         (details.arm64e_auth_rebase.Build 0x10 0 0 0 0 0 1))], []).
Proof. cbv zeta. repeat split. Qed.

(** ** Equality as a relation *)

Section EqualityRelation.

Variable process : list Z -> Z.

(** The answer of [operator==] between two consistent records, whether or
    not the identity shortcut is taken. *)
Lemma operator_eq_answer (a b : ref) (h : heap) (x y : Z) :
  (addr a = addr b -> deref a = deref b) ->
  Hash_hash process (deref a) h = Some x ->
  Hash_hash process (deref b) h = Some y ->
  fst <$> operator_eq process a b h = Some (x =? y).
Proof.
  intros Halias Hx Hy. unfold operator_eq.
  destruct (Nat.eqb_spec (addr a) (addr b)) as [Heq|Hne].
  - rewrite (Halias Heq) in Hx. rewrite Hx in Hy. injection Hy as ->.
    rewrite Z.eqb_refl. reflexivity.
  - rewrite Hx, Hy. reflexivity.
Qed.

(** X12: on consistent records, where one address means one record,
    [operator==] is an equivalence relation: every record equals itself,
    [a == b] and [b == a] give the same answer, and [a == b] with [b == c]
    gives [a == c]; [operator!=] always answers the opposite of
    [operator==]. *)
Theorem operator_eq_is_an_equivalence (a b c : ref) (h : heap) :
  consistent (deref a) h ->
  consistent (deref b) h ->
  consistent (deref c) h ->
  (addr a = addr b -> deref a = deref b) ->
  (addr b = addr c -> deref b = deref c) ->
  (addr a = addr c -> deref a = deref c) ->
  fst <$> operator_eq process a a h = Some true /\
  fst <$> operator_eq process b a h = fst <$> operator_eq process a b h /\
  (fst <$> operator_eq process a b h = Some true ->
   fst <$> operator_eq process b c h = Some true ->
   fst <$> operator_eq process a c h = Some true) /\
  operator_ne process a b h = negb <$> (fst <$> operator_eq process a b h).
Proof.
  intros Ha Hb Hc Hab Hbc Hac.
  destruct (consistent_Hash_hash process _ _ Ha) as [x Hx].
  destruct (consistent_Hash_hash process _ _ Hb) as [y Hy].
  destruct (consistent_Hash_hash process _ _ Hc) as [z Hz].
  assert (Hba : addr b = addr a -> deref b = deref a)
    by (intros H; symmetry; apply Hab; symmetry; exact H).
  split; [|split; [|split]].
  - rewrite (operator_eq_answer a a h x x (fun _ => eq_refl) Hx Hx).
    rewrite Z.eqb_refl. reflexivity.
  - rewrite (operator_eq_answer a b h x y Hab Hx Hy).
    rewrite (operator_eq_answer b a h y x Hba Hy Hx).
    rewrite Z.eqb_sym. reflexivity.
  - rewrite (operator_eq_answer a b h x y Hab Hx Hy).
    rewrite (operator_eq_answer b c h y z Hbc Hy Hz).
    rewrite (operator_eq_answer a c h x z Hac Hx Hz).
    intros [= H1] [= H2]. apply Z.eqb_eq in H1, H2. subst.
    rewrite Z.eqb_refl. reflexivity.
  - unfold operator_ne.
    destruct (operator_eq process a b h) as [[r n]|]; reflexivity.
Qed.

End EqualityRelation.

Lemma operator_eq_is_an_equivalence_example :
  let p := details.ptr_64_rebase.Build 0x1000 0 0 3 0 in
  let a := Ref 0 (with_payload (constructor 2 0x100000000) PTR64_REBASE 0) in
  let b := Ref 1 (with_payload (constructor 2 0x100000000) PTR64_REBASE 1) in
  let c := Ref 2 (with_payload (constructor 2 0x100000000) PTR64_REBASE 2) in
  let h := [Some (obj_64_rebase p); Some (obj_64_rebase p); Some (obj_64_rebase p)] in
  fst <$> operator_eq sample_process a a h = Some true /\
  fst <$> operator_eq sample_process b a h = fst <$> operator_eq sample_process a b h /\
  (fst <$> operator_eq sample_process a b h = Some true ->
   fst <$> operator_eq sample_process b c h = Some true ->
   fst <$> operator_eq sample_process a c h = Some true) /\
  operator_ne sample_process a b h =
    negb <$> (fst <$> operator_eq sample_process a b h).
Proof.
  cbv zeta.
  apply (operator_eq_is_an_equivalence sample_process
           (Ref 0 (with_payload (constructor 2 0x100000000) PTR64_REBASE 0))
           (Ref 1 (with_payload (constructor 2 0x100000000) PTR64_REBASE 1))
           (Ref 2 (with_payload (constructor 2 0x100000000) PTR64_REBASE 2))
           [Some (obj_64_rebase (details.ptr_64_rebase.Build 0x1000 0 0 3 0));
            Some (obj_64_rebase (details.ptr_64_rebase.Build 0x1000 0 0 3 0));
            Some (obj_64_rebase (details.ptr_64_rebase.Build 0x1000 0 0 3 0))]).
  - simpl. eexists. reflexivity.
  - simpl. eexists. reflexivity.
  - simpl. eexists. reflexivity.
  - simpl. intros H. discriminate H.
  - simpl. intros H. discriminate H.
  - simpl. intros H. discriminate H.
Defined.

(** ** Printing *)

Lemma length_zeros (n : nat) : String.length (zeros n) = n.
Proof. induction n as [|n IH]; simpl; [reflexivity|]. rewrite IH. reflexivity. Qed.

Lemma length_append (s1 s2 : string) :
  String.length (String.append s1 s2) = (String.length s1 + String.length s2)%nat.
Proof. induction s1 as [|c s1 IH]; simpl; [reflexivity|]. rewrite IH. reflexivity. Qed.

(** Leading zeros do not change the number read. *)
Lemma to_N_zeros (n : nat) (s : string) :
  HexString.Raw.to_N (String.append (zeros n) s) 0 = HexString.Raw.to_N s 0.
Proof. induction n as [|n IH]; simpl; [reflexivity|]. exact IH. Qed.

Lemma to_N_hex_digits (x : Z) :
  HexString.Raw.to_N (hex_digits x) 0 = Z.to_N x.
Proof.
  destruct x as [|p|p]; try reflexivity.
  unfold hex_digits. rewrite HexString.Raw.to_N_of_pos. reflexivity.
Qed.

(** [{:08x}] writes at least eight digits, and they read back as the number. *)
Lemma format_08x_reads_back (x : Z) :
  (8 <= String.length (format_08x x))%nat /\
  HexString.Raw.to_N (format_08x x) 0 = Z.to_N x.
Proof.
  unfold format_08x. split.
  - rewrite length_append, length_zeros. lia.
  - rewrite to_N_zeros. apply to_N_hex_digits.
Qed.

Lemma target_defined (this : RelocationFixup) (h : heap) :
  consistent this h -> exists t log, target this h = Some (t, log).
Proof.
  unfold consistent, target.
  destruct (rtypes_ this); try (intros [p ->]); simpl; eauto.
Qed.

(** X13: printing a consistent record always succeeds and logs exactly what
    [target()] logs.  The text is "0x", the address, ": 0x", the target, the
    symbol name in parentheses when there is a symbol, a newline, and then
    what the base class prints; address and target are written with at least
    eight hexadecimal digits that read back as [address()] and [target()].
    For an UNKNOWN record the target is shown as 00000000 and the error of
    the getter is logged. *)
Theorem print_shows_address_and_target (symbol : option string)
    (Relocation_print : string) (this : RelocationFixup) (h : heap) :
  consistent this h ->
  exists t log A T,
    target this h = Some (t, log) /\
    print symbol Relocation_print this h =
      Some (String.append "0x"
              (String.append A
                 (String.append ": 0x"
                    (String.append T
                       (String.append
                          match symbol with
                          | Some name => String.append "(" (String.append name ")")
                          | None => EmptyString
                          end
                          (String.append newline Relocation_print))))),
            log) /\
    (8 <= String.length A)%nat /\
    (8 <= String.length T)%nat /\
    HexString.Raw.to_N A 0 = Z.to_N (address this) /\
    HexString.Raw.to_N T 0 = Z.to_N t /\
    (rtypes_ this = UNKNOWN ->
     T = "00000000"%string /\
     log = [LIEF_ERR "Can't get target: unknown rebase type"]).
Proof.
  intros Hc. destruct (target_defined this h Hc) as (t & log & Ht).
  exists t, log, (format_08x (address this)), (format_08x t).
  split; [exact Ht|].
  split; [unfold print; rewrite Ht; reflexivity|].
  destruct (format_08x_reads_back (address this)) as [HlenA HreadA].
  destruct (format_08x_reads_back t) as [HlenT HreadT].
  do 4 (split; [assumption|]).
  intros Hu. unfold target in Ht. rewrite Hu in Ht. injection Ht as <- <-.
  split; reflexivity.
Qed.

Lemma print_shows_address_and_target_example :
  let p := details.ptr_64_rebase.Build 0x1000 0 0 3 0 in
  let this :=
    set_address 32 (with_payload (constructor 2 0x100000000) PTR64_REBASE 0)
      0x100004010 in
  let h := [Some (obj_64_rebase p)] in
  print (Some "_main"%string) EmptyString this h =
    Some (String.append "0x100004010: 0x100001000(_main)" newline, []) /\
  print None EmptyString (constructor 2 0x100000000) [] =
    Some (String.append "0x100000000: 0x00000000" newline,
          [LIEF_ERR "Can't get target: unknown rebase type"]) /\
  exists t log A T,
    target this h = Some (t, log) /\
    print (Some "_main"%string) EmptyString this h =
      Some (String.append "0x"
              (String.append A
                 (String.append ": 0x"
                    (String.append T
                       (String.append "(_main)"
                          (String.append newline EmptyString))))),
            log) /\
    (8 <= String.length A)%nat /\
    (8 <= String.length T)%nat /\
    HexString.Raw.to_N A 0 = Z.to_N (address this) /\
    HexString.Raw.to_N T 0 = Z.to_N t /\
    (rtypes_ this = UNKNOWN ->
     T = "00000000"%string /\
     log = [LIEF_ERR "Can't get target: unknown rebase type"]).
Proof.
  cbv zeta. split; [reflexivity|]. split; [reflexivity|].
  apply (print_shows_address_and_target (Some "_main"%string) EmptyString
           (set_address 32
              (with_payload (constructor 2 0x100000000) PTR64_REBASE 0)
              0x100004010)
           [Some (obj_64_rebase (details.ptr_64_rebase.Build 0x1000 0 0 3 0))]).
  simpl. eexists. reflexivity.
Defined.

(** ** Writing back the target that was read *)

(** Scattering the value gathered from a low field and a top byte gives the
    two fields back. *)
Lemma gather_then_scatter (w hi lo : Z) :
  0 <= w <= 56 -> fits 8 hi -> fits w lo ->
  bitfield w (u64 (Z.lor (Z.shiftl hi 56) lo)) = lo /\
  bitfield 8 (Z.shiftr (u64 (Z.lor (Z.shiftl hi 56) lo)) 56) = hi.
Proof.
  intros Hw Hhi Hlo. split; apply Z.bits_inj'; intros n Hn.
  - rewrite testbit_bitfield, testbit_u64, Z.lor_spec by lia.
    destruct (Z.ltb_spec n w) as [Hlt|Hge].
    + rewrite Z.shiftl_spec_low by lia.
      destruct (Z.ltb_spec n 64); [|lia]. simpl. apply andb_true_r.
    + rewrite andb_false_r. symmetry. apply (testbit_above w); [lia|exact Hlo|lia].
  - rewrite testbit_bitfield, Z.shiftr_spec, testbit_u64, Z.lor_spec by lia.
    rewrite Z.shiftl_spec by lia. replace (n + 56 - 56) with n by lia.
    rewrite (testbit_above w lo (n + 56)) by (lia || exact Hlo).
    rewrite orb_false_r.
    destruct (Z.ltb_spec n 8) as [Hlt|Hge].
    + destruct (Z.ltb_spec (n + 56) 64); [|lia]. simpl. apply andb_true_r.
    + rewrite andb_false_r. symmetry. apply (testbit_above 8); [lia|exact Hhi|lia].
Qed.

Lemma pack_unpack_arm64e (p : dyld_chained_ptr_arm64e_rebase) :
  details.arm64e_rebase.wf p ->
  pack_target_arm64e p (unpack_target_arm64e p) = p.
Proof.
  intros (Htg & Hh8 & _).
  destruct (gather_then_scatter 43 _ _ ltac:(lia) Hh8 Htg) as [Hlo Hhi].
  unfold pack_target_arm64e, unpack_target_arm64e, arm64e_unpack_target.
  rewrite Hlo, Hhi. destruct p; reflexivity.
Qed.

Lemma pack_unpack_64 (p : dyld_chained_ptr_64_rebase) :
  details.ptr_64_rebase.wf p ->
  pack_target_64 p (unpack_target_64 p) = p.
Proof.
  intros (Htg & Hh8 & _).
  destruct (gather_then_scatter 36 _ _ ltac:(lia) Hh8 Htg) as [Hlo Hhi].
  unfold pack_target_64, unpack_target_64, generic64_unpack_target.
  rewrite Hlo, Hhi. destruct p; reflexivity.
Qed.

Lemma assign_target_same (p : dyld_chained_ptr_arm64e_auth_rebase) :
  details.arm64e_auth_rebase.wf p ->
  details.arm64e_auth_rebase.assign_target p (details.arm64e_auth_rebase.target p) = p.
Proof.
  intros (Htg & _). unfold details.arm64e_auth_rebase.assign_target.
  rewrite bitfield_small by (lia || exact Htg). destruct p; reflexivity.
Qed.

(** The relative value behind a target that did not wrap around. *)
Lemma rel_target_of_target (this : RelocationFixup) (d t : Z) :
  0 <= imagebase_ this -> in_u64 d ->
  add64 (imagebase_ this) d = t -> imagebase_ this <= t ->
  rel_target this t = d.
Proof.
  intros Hb Hd Hadd Hle. rewrite rel_target_above by exact Hle.
  assert (Ht : in_u64 t) by (rewrite <- Hadd; apply u64_range).
  symmetry. apply (add64_cancel (imagebase_ this) d (t - imagebase_ this));
    [exact Hd | exact Hb | lia | | ].
  - replace (imagebase_ this + (t - imagebase_ this)) with t by lia. exact Ht.
  - rewrite Hadd. lia.
Qed.

(** X15: reading the target and writing it back changes nothing.  On a
    consistent ARM64E_REBASE, ARM64E_AUTH_REBASE or PTR64_REBASE record whose
    payload fields are within their widths, if [target()] returns t and t is
    not below the image base (the sum did not wrap around), then [target(t)]
    leaves the record and the whole heap as they were and logs nothing. *)
Theorem set_target_of_target_is_identity (this : RelocationFixup) (h : heap)
    (l : nat) (o : object) (t : Z) (log : list log_entry) :
  rtypes_ this = ARM64E_REBASE \/ rtypes_ this = ARM64E_AUTH_REBASE \/
  rtypes_ this = PTR64_REBASE ->
  consistent this h ->
  payload_ this = Some l ->
  h !! l = Some (Some o) ->
  wf_object o ->
  0 <= imagebase_ this ->
  target this h = Some (t, log) ->
  imagebase_ this <= t ->
  set_target this t h = Some (this, h, []).
Proof.
  intros Henc Hc Hl Hcell Hwf Hb Hget Hle. unfold consistent in Hc.
  destruct Henc as [Ht|[Ht|Ht]]; rewrite Ht in Hc; destruct Hc as [p Hp].
  - pose proof Hp as Hp'.
    apply typed_load_arm64e in Hp' as (l' & Hl' & Hcell').
    assert (l' = l) by congruence. subst l'.
    assert (o = obj_arm64e_rebase p) by congruence. subst o.
    unfold target in Hget. rewrite Ht, Hp in Hget. injection Hget as Hget _.
    rewrite (set_target_arm64e this h l p t Ht Hl Hcell).
    rewrite (rel_target_of_target this (unpack_target_arm64e p) t Hb
               ltac:(apply u64_range) Hget Hle).
    rewrite (pack_unpack_arm64e p Hwf), list_insert_id by exact Hcell.
    reflexivity.
  - pose proof Hp as Hp'.
    apply typed_load_arm64e_auth in Hp' as (l' & Hl' & Hcell').
    assert (l' = l) by congruence. subst l'.
    assert (o = obj_arm64e_auth_rebase p) by congruence. subst o.
    unfold target in Hget. rewrite Ht, Hp in Hget. injection Hget as Hget _.
    rewrite (set_target_arm64e_auth this h l p t Ht Hl Hcell).
    assert (Hd : in_u64 (details.arm64e_auth_rebase.target p)).
    { destruct Hwf as (Htg & _). unfold fits, in_u64 in *. lia. }
    rewrite (rel_target_of_target this _ t Hb Hd Hget Hle).
    rewrite (assign_target_same p Hwf), list_insert_id by exact Hcell.
    reflexivity.
  - pose proof Hp as Hp'.
    apply typed_load_64 in Hp' as (l' & Hl' & Hcell').
    assert (l' = l) by congruence. subst l'.
    assert (o = obj_64_rebase p) by congruence. subst o.
    unfold target in Hget. rewrite Ht, Hp in Hget. injection Hget as Hget _.
    rewrite (set_target_64 this h l p t Ht Hl Hcell).
    rewrite (rel_target_of_target this (unpack_target_64 p) t Hb
               ltac:(apply u64_range) Hget Hle).
    rewrite (pack_unpack_64 p Hwf), list_insert_id by exact Hcell.
    reflexivity.
Qed.

Lemma set_target_of_target_is_identity_example :
  let p := details.arm64e_auth_rebase.Build 0x4000 0xBEEF 1 2 5 0 1 in
  let this := with_payload (constructor 1 0x100000000) ARM64E_AUTH_REBASE 0 in
  let h := [Some (obj_arm64e_auth_rebase p)] in
  target this h = Some (0x100004000, []) /\
  set_target this 0x100004000 h = Some (this, h, []).
Proof.
  cbv zeta. split; [reflexivity|].
  apply (set_target_of_target_is_identity
           (with_payload (constructor 1 0x100000000) ARM64E_AUTH_REBASE 0)
           [Some (obj_arm64e_auth_rebase
                    (details.arm64e_auth_rebase.Build 0x4000 0xBEEF 1 2 5 0 1))]
           0%nat
           (obj_arm64e_auth_rebase
              (details.arm64e_auth_rebase.Build 0x4000 0xBEEF 1 2 5 0 1))
           0x100004000 []).
  - right. left. reflexivity.
  - simpl. eexists. reflexivity.
  - reflexivity.
  - reflexivity.
  - simpl. unfold details.arm64e_auth_rebase.wf, fits. simpl. lia.
  - simpl. lia.
  - reflexivity.
  - simpl. lia.
Defined.
